(** * Verification of jedi's class model, tree utilities and stdlib patches

    A shallow embedding of
    - [jedi/inference/value/klass.py]  (module [Klass]),
    - [jedi/parser_utils.py]           (module [ParserUtils]),
    - [jedi/plugins/stdlib.py]         (module [StdlibPlugin]),
    together with the properties the specification states about them. *)

From stdpp Require Import base option list strings relations gmap.
From Stdlib Require Import ZArith Lia.

Set Default Proof Using "Type".
Set Warnings "-register-all,-clear-no-such-hyp".
Open Scope string_scope.

(** ** Python helpers shared by the three modules *)

(** [s.startswith(p)] *)
Definition startswith (p s : string) : bool := String.prefix p s.

(** [s.endswith(p)] *)
Definition endswith (p s : string) : bool :=
  let n := String.length s in
  let m := String.length p in
  if Nat.leb m n then String.eqb (String.substring (n - m) m s) p else false.

(** [sub in s] on strings *)
Definition str_contains (sub s : string) : bool :=
  match String.index 0 sub s with
  | Some _ => true
  | None => false
  end.

(** * jedi/inference/value/klass.py *)
Module Klass.

(** A value of the inference engine.  A [ClassValue] is created through
    [CachedMetaClass], so there is one object per class definition and
    context; it is represented by its identity, an index into the table of
    class definitions of the inference state.  [VInstance c] is the
    [TreeInstance] that [ClassMixin.py__call__] builds for class [c];
    [VOther] stands for every value that is not a class (functions,
    literals, modules, ...). *)
Inductive Value :=
  | VClass (c : nat)
  | VInstance (c : nat)
  | VOther (o : nat).

#[global] Instance Value_eq_dec : EqDecision Value.
Proof. solve_decision. Defined.

(** A [ValueSet], in the order in which iterating it produces its
    members. *)
Definition ValueSet := list Value.

Definition NO_VALUES : ValueSet := [].

(** [ValueSet(iterable)]: the members of the iterable, once each. *)
Definition ValueSet_of (l : list Value) : ValueSet := remove_dups l.

(** [ValueSet.from_sets(sets)] *)
Definition from_sets (sets : list ValueSet) : ValueSet :=
  remove_dups (concat sets).

(** [bool(value_set)] *)
Definition truthy (vs : ValueSet) : bool :=
  match vs with
  | [] => false
  | _ :: _ => true
  end.

(** [value.is_class()]: [ClassMixin.is_class] answers [True], every other
    value answers [False]. *)
Definition is_class (v : Value) : bool :=
  match v with
  | VClass _ => true
  | _ => false
  end.

(** Lazy values.  A [LazyTreeValue] holds a syntax node and its context;
    the inference engine that evaluates the node is outside this module, so
    the node is represented by the set its inference yields.
    [LazyKnownValues] holds an already known set. *)
Inductive LazyValue :=
  | LazyTreeValue (inferred : ValueSet)
  | LazyKnownValues (values : ValueSet).

Definition infer (l : LazyValue) : ValueSet :=
  match l with
  | LazyTreeValue vs => vs
  | LazyKnownValues vs => vs
  end.

(** What [arguments.unpack()] yields: pairs of an optional keyword and a
    lazy value, in call order. *)
Definition Unpacked := list (option string * LazyValue).

(** A class definition: [py__name__()], the context it is defined in, and
    [tree_node.get_super_arglist()], which is [None] for [class C:] and
    [class C():] and otherwise the argument list, given here by what
    [TreeArguments(...).unpack()] yields for it. *)
Record ClassDef := {
  py__name__ : string;
  parent_context : nat;
  get_super_arglist : option Unpacked
}.

(** The inference state: the builtins module, what looking up ['object']
    in it gives, and the class definitions of the session. *)
Record InferState := {
  builtins_module : nat;
  builtins_object : ValueSet;
  classes : list ClassDef
}.

(** [ClassValue._get_bases_arguments] *)
Definition _get_bases_arguments (cd : ClassDef) : option Unpacked :=
  match get_super_arglist cd with
  | Some arglist => Some arglist
  | None => None
  end.

(** [[value for key, value in args.unpack() if key is None]] *)
Fixpoint positional (args : Unpacked) : list LazyValue :=
  match args with
  | [] => []
  | (None, value) :: rest => value :: positional rest
  | (Some _, _) :: rest => positional rest
  end.

(** [[value for key, value in args.unpack() if key == 'metaclass']] *)
Fixpoint keyword_metaclass (args : Unpacked) : list LazyValue :=
  match args with
  | [] => []
  | (Some key, value) :: rest =>
      if String.eqb key "metaclass" then value :: keyword_metaclass rest
      else keyword_metaclass rest
  | (None, _) :: rest => keyword_metaclass rest
  end.

(** The test [self.py__name__() == 'object' and
    self.parent_context == self.infer_state.builtins_module]. *)
Definition is_builtin_object (st : InferState) (cd : ClassDef) : bool :=
  String.eqb (py__name__ cd) "object"
  && Nat.eqb (parent_context cd) (builtins_module st).

(** The tail of [py__bases__], reached when there is no non-empty list of
    positional arguments. *)
Definition default_bases (st : InferState) (cd : ClassDef) : list LazyValue :=
  if is_builtin_object st cd then []
  else [LazyKnownValues (builtins_object st)].

(** [ClassValue.py__bases__] *)
Definition py__bases__ (st : InferState) (cd : ClassDef) : list LazyValue :=
  match _get_bases_arguments cd with
  | Some args =>
      match positional args with
      | [] => default_bases st cd
      | lst => lst
      end
  | None => default_bases st cd
  end.

(** Modelled from the spec: the memoizing decorators
    [infer_state_method_cache(default=...)] and
    [infer_state_method_generator_cache()] of jedi/inference/cache.py, which
    is not among the sources.  A cache entry that is under active computation
    and is entered again returns the designated no-result-yet value
    ([default], for a generator: no elements) instead of recursing.  [active]
    lists the classes whose entry is under computation.  What is modelled is
    the computation of an entry; an entry that is stored is handed out again
    as it was computed, with the classes that were under computation then.
    The properties below are therefore stated for every [active] and in
    terms of the results of the nested calls, or for classes that reach no
    cycle, where no entry is entered again and the stored result is the one
    a new computation gives. *)
Definition cycle_safe {A : Type} (default : A) (active : list nat) (self : nat)
    (compute : option A) : option A :=
  if bool_decide (self ∈ active) then Some default else compute.

(** The innermost loop of [py__mro__]:
    [for cls_new in mro_method(): if cls_new not in mro: mro.append(cls_new);
    yield cls_new].  Every element appended to [mro] is yielded at once and
    [mro] starts as [[self]] with [self] yielded, so the sequence the
    generator yields is the final [mro]. *)
Fixpoint mro_append_new (mro : list nat) (yielded : list nat) : list nat :=
  match yielded with
  | [] => mro
  | cls_new :: rest =>
      if bool_decide (cls_new ∈ mro) then mro_append_new mro rest
      else mro_append_new (mro ++ [cls_new]) rest
  end.

(** [for cls in lazy_cls.infer(): ...]: a value without [py__mro__] only
    causes a warning.  [mro_method c] is the call [cls.py__mro__()]; it is
    [None] when the evaluation does not complete. *)
Fixpoint mro_over_values (mro_method : nat → option (list nat))
    (mro : list nat) (vs : ValueSet) : option (list nat) :=
  match vs with
  | [] => Some mro
  | VClass c :: rest =>
      match mro_method c with
      | Some yielded =>
          mro_over_values mro_method (mro_append_new mro yielded) rest
      | None => None
      end
  | _ :: rest => mro_over_values mro_method mro rest
  end.

(** [for lazy_cls in self.py__bases__(): ...] *)
Fixpoint mro_over_bases (mro_method : nat → option (list nat))
    (mro : list nat) (bases : list LazyValue) : option (list nat) :=
  match bases with
  | [] => Some mro
  | lazy_cls :: rest =>
      match mro_over_values mro_method mro (infer lazy_cls) with
      | Some mro' => mro_over_bases mro_method mro' rest
      | None => None
      end
  end.

(** [ClassMixin.py__mro__], as the list of the classes it yields.  [fuel]
    bounds the depth of nested calls; the result is [None] when the fuel
    runs out or a class identity has no definition. *)
Fixpoint py__mro__ (fuel : nat) (st : InferState) (active : list nat)
    (self : nat) : option (list nat) :=
  match fuel with
  | O => None
  | S fuel' =>
      cycle_safe [] active self
        match classes st !! self with
        | None => None
        | Some cd =>
            mro_over_bases (py__mro__ fuel' st (self :: active)) [self]
              (py__bases__ st cd)
        end
  end.

(** A loop that may leave the function through [return]. *)
Inductive Loop (A : Type) :=
  | Return (a : A)
  | Completed.
Arguments Return {A} a.
Arguments Completed {A}.

(** [for value in lazy_base.infer(): if value.is_class(): values =
    value.get_metaclasses(); if values: return values] *)
Fixpoint metaclasses_over_values (metaclasses_of : nat → option ValueSet)
    (vs : ValueSet) : option (Loop ValueSet) :=
  match vs with
  | [] => Some Completed
  | value :: rest =>
      if is_class value then
        match value with
        | VClass c =>
            match metaclasses_of c with
            | Some values =>
                if truthy values then Some (Return values)
                else metaclasses_over_values metaclasses_of rest
            | None => None
            end
        | _ => metaclasses_over_values metaclasses_of rest
        end
      else metaclasses_over_values metaclasses_of rest
  end.

(** [for lazy_base in self.py__bases__(): ...] *)
Fixpoint metaclasses_over_bases (metaclasses_of : nat → option ValueSet)
    (bases : list LazyValue) : option (Loop ValueSet) :=
  match bases with
  | [] => Some Completed
  | lazy_base :: rest =>
      match metaclasses_over_values metaclasses_of (infer lazy_base) with
      | Some Completed => metaclasses_over_bases metaclasses_of rest
      | r => r
      end
  end.

(** The two loops of [get_metaclasses] and its final [return NO_VALUES]. *)
Definition inherited_metaclasses (metaclasses_of : nat → option ValueSet)
    (bases : list LazyValue) : option ValueSet :=
  match metaclasses_over_bases metaclasses_of bases with
  | Some (Return values) => Some values
  | Some Completed => Some NO_VALUES
  | None => None
  end.

(** The first part of [get_metaclasses]: the classes among the values of the
    [metaclass=] arguments. *)
Definition declared_metaclasses (args : Unpacked) : ValueSet :=
  let m := keyword_metaclass args in
  let metaclasses := from_sets (map infer m) in
  ValueSet_of (List.filter is_class metaclasses).

(** [ClassValue.get_metaclasses] *)
Fixpoint get_metaclasses (fuel : nat) (st : InferState) (active : list nat)
    (self : nat) : option ValueSet :=
  match fuel with
  | O => None
  | S fuel' =>
      cycle_safe NO_VALUES active self
        match classes st !! self with
        | None => None
        | Some cd =>
            let scan :=
              inherited_metaclasses (get_metaclasses fuel' st (self :: active))
                (py__bases__ st cd) in
            match _get_bases_arguments cd with
            | Some args =>
                let metaclasses := declared_metaclasses args in
                if truthy metaclasses then Some metaclasses else scan
            | None => scan
            end
        end
  end.

(** [ClassMixin.py__call__]: one new instance of the class. *)
Definition py__call__ (c : nat) : ValueSet := [VInstance c].

(** *** ClassFilter *)

(** A scope node of the syntax tree with its enclosing scopes: the module,
    or a class, function or lambda inside a parent scope. *)
Inductive ScopeNode :=
  | ModuleScope (id : nat)
  | InnerScope (id : nat) (parent : ScopeNode).

Definition scope_id (node : ScopeNode) : nat :=
  match node with
  | ModuleScope id => id
  | InnerScope id _ => id
  end.

(** Modelled from the spec: [get_cached_parent_scope] of jedi/parser_utils.py
    (absent from the version of that file among the sources): the next scope
    on the ancestor chain of [node], [None] at the module. *)
Definition get_cached_parent_scope (node : ScopeNode) : option ScopeNode :=
  match node with
  | ModuleScope _ => None
  | InnerScope _ parent => Some parent
  end.

(** Python objects compared by [==] in [_equals_origin_scope]: nodes of the
    syntax tree and values.  Neither class overrides [__eq__], so two objects
    are equal when they are the same object. *)
Inductive PyObject :=
  | TreeNode (id : nat)
  | ValueObject (v : Value).

#[global] Instance PyObject_eq_dec : EqDecision PyObject.
Proof. solve_decision. Defined.

Definition py_eq (a b : PyObject) : bool := bool_decide (a = b).

(** The definition statement of a name, as [_access_possible] reads it: its
    [type], the type of [children[1]] and the code of
    [children[1].children[1]]. *)
Record DefinitionNode := {
  def_type : string;
  child1_type : string;
  annotation_code : string
}.

(** A name of the class body: [name.value] and [name.get_definition()]. *)
Record TreeName := {
  value : string;
  get_definition : option DefinitionNode
}.

(** The attributes of a [ClassFilter] that [_access_possible] reads:
    [self.value], the tree node of the class the filter shows
    ([self._parser_scope]) and [self._origin_scope]. *)
Record ClassFilter := {
  filter_value : Value;
  _parser_scope : nat;
  _origin_scope : option ScopeNode
}.

(** The loop of [_equals_origin_scope], started at [node]; the match on
    [node] is the step [node = get_cached_parent_scope(..., node)] with the
    loop test [node is not None]. *)
Fixpoint origin_scope_walk (f : ClassFilter) (node : ScopeNode) : bool :=
  if py_eq (TreeNode (scope_id node)) (TreeNode (_parser_scope f))
     || py_eq (TreeNode (scope_id node)) (ValueObject (filter_value f))
  then true
  else
    match node with
    | InnerScope _ parent => origin_scope_walk f parent
    | ModuleScope _ => false
    end.

(** [ClassFilter._equals_origin_scope] *)
Definition _equals_origin_scope (f : ClassFilter) : bool :=
  match _origin_scope f with
  | Some node => origin_scope_walk f node
  | None => false
  end.

(** The first part of [_access_possible]: [true] when the [ClassVar] rule
    makes the function return [False]. *)
Definition rejected_as_instance_variable (name : TreeName)
    (from_instance : bool) : bool :=
  if negb from_instance then
    match get_definition name with
    | Some expr_stmt =>
        if String.eqb (def_type expr_stmt) "expr_stmt" then
          if String.eqb (child1_type expr_stmt) "annassign" then
            negb (str_contains "ClassVar" (annotation_code expr_stmt))
          else false
        else false
    | None => false
    end
  else false.

(** [ClassFilter._access_possible] *)
Definition _access_possible (f : ClassFilter) (name : TreeName)
    (from_instance : bool) : bool :=
  if rejected_as_instance_variable name from_instance then false
  else
    negb (startswith "__" (value name)) || endswith "__" (value name)
    || _equals_origin_scope f.

(** [ClassFilter._filter]; [super_filter] is [ParserTreeFilter._filter], of
    jedi/inference/filters.py. *)
Definition _filter (super_filter : list TreeName → list TreeName)
    (f : ClassFilter) (names : list TreeName) (from_instance : bool)
    : list TreeName :=
  let names := super_filter names in
  List.filter (fun name => _access_possible f name from_instance) names.

(** The inner loop of [list_type_vars]:
    [for type_var in ...: if type_var not in found: found.append(type_var)] *)
Fixpoint type_vars_append (found : list Value) (type_vars : list Value)
    : list Value :=
  match type_vars with
  | [] => found
  | type_var :: rest =>
      if bool_decide (type_var ∈ found) then type_vars_append found rest
      else type_vars_append (found ++ [type_var]) rest
  end.

(** [for stars, node in unpack_arglist(arglist): ...]; an argument is a pair
    of its number of stars and its node, and [find_unknown_type_vars node] is
    the function of that name of jedi/inference/gradual/annotation.py applied
    to the context of the class and the node. *)
Fixpoint type_vars_over_arglist (find_unknown_type_vars : nat → list Value)
    (found : list Value) (arglist : list (nat * nat)) : list Value :=
  match arglist with
  | [] => found
  | (stars, node) :: rest =>
      if negb (Nat.eqb stars 0) then
        type_vars_over_arglist find_unknown_type_vars found rest
      else
        type_vars_over_arglist find_unknown_type_vars
          (type_vars_append found (find_unknown_type_vars node)) rest
  end.

(** [ClassValue.list_type_vars]; [arglist] is
    [self.tree_node.get_super_arglist()] as [unpack_arglist] reads it. *)
Definition list_type_vars (find_unknown_type_vars : nat → list Value)
    (arglist : option (list (nat * nat))) : list Value :=
  match arglist with
  | None => []
  | Some arglist => type_vars_over_arglist find_unknown_type_vars [] arglist
  end.

End Klass.

(** * jedi/parser_utils.py *)
Module ParserUtils.

(** A position [(line, column)]; Python compares tuples lexicographically. *)
Definition Pos := (nat * nat)%type.

Definition pos_lt (a b : Pos) : bool :=
  Nat.ltb a.1 b.1 || (Nat.eqb a.1 b.1 && Nat.ltb a.2 b.2).

Definition pos_le (a b : Pos) : bool :=
  Nat.ltb a.1 b.1 || (Nat.eqb a.1 b.1 && Nat.leb a.2 b.2).

(** The syntax tree of the parser: leaves carry their text and span,
    inner nodes their children.  [id] is the identity of the node object. *)
Inductive Node :=
  | Leaf (id : nat) (type value : string) (start_pos end_pos : Pos)
  | BaseNode (id : nat) (type : string) (children : list Node).

Definition node_id (n : Node) : nat :=
  match n with
  | Leaf id _ _ _ _ => id
  | BaseNode id _ _ => id
  end.

Definition node_type (n : Node) : string :=
  match n with
  | Leaf _ type _ _ _ => type
  | BaseNode _ type _ => type
  end.

(** [node.children]; a leaf has no such attribute. *)
Definition node_children (n : Node) : option (list Node) :=
  match n with
  | Leaf _ _ _ _ _ => None
  | BaseNode _ _ children => Some children
  end.

(** [node.get_first_leaf()] *)
Fixpoint get_first_leaf (n : Node) : Node :=
  match n with
  | Leaf _ _ _ _ _ => n
  | BaseNode _ _ [] => n
  | BaseNode _ _ (child :: _) => get_first_leaf child
  end.

(** [node.get_last_leaf()] *)
Fixpoint get_last_leaf (n : Node) : Node :=
  match n with
  | Leaf _ _ _ _ _ => n
  | BaseNode _ _ children =>
      (fix last_of (cs : list Node) (acc : Node) : Node :=
         match cs with
         | [] => acc
         | c :: cs' => last_of cs' (get_last_leaf c)
         end) children n
  end.

(** [node.start_pos]: of an inner node, that of its first child. *)
Definition start_pos (n : Node) : Pos :=
  match get_first_leaf n with
  | Leaf _ _ _ p _ => p
  | BaseNode _ _ _ => (0, 0)
  end.

(** [node.end_pos]: of an inner node, that of its last child. *)
Definition end_pos (n : Node) : Pos :=
  match get_last_leaf n with
  | Leaf _ _ _ _ p => p
  | BaseNode _ _ _ => (0, 0)
  end.

(** [node == string]: keyword and operator leaves compare equal to the
    string that is their text; every other node is equal only to itself. *)
Definition node_eq_str (n : Node) (s : string) : bool :=
  match n with
  | Leaf _ type value _ _ =>
      (String.eqb type "keyword" || String.eqb type "operator")
      && String.eqb value s
  | BaseNode _ _ _ => false
  end.

(** The leaves of a tree, left to right. *)
Fixpoint leaves (n : Node) : list Node :=
  match n with
  | Leaf _ _ _ _ _ => [n]
  | BaseNode _ _ children => concat (map leaves children)
  end.

(** [node.parent], looked up from the root of the tree. *)
Fixpoint find_parent (root : Node) (id : nat) : option Node :=
  match root with
  | Leaf _ _ _ _ _ => None
  | BaseNode _ _ children =>
      if existsb (fun c => Nat.eqb (node_id c) id) children then Some root
      else
        (fix among (cs : list Node) : option Node :=
           match cs with
           | [] => None
           | c :: cs' =>
               match find_parent c id with
               | Some p => Some p
               | None => among cs'
               end
           end) children
  end.

Fixpoint leaf_after (id : nat) (ls : list Node) : option Node :=
  match ls with
  | [] => None
  | l :: rest =>
      if Nat.eqb (node_id l) id then head rest else leaf_after id rest
  end.

(** [node.get_next_leaf()]: the leaf that follows the last leaf of [node] in
    the tree, [None] at the end of the file. *)
Definition get_next_leaf (root node : Node) : option Node :=
  leaf_after (node_id (get_last_leaf node)) (leaves root).

(** Results of Python code that may raise. *)
Inductive Result (A : Type) :=
  | Ok (a : A)
  | Raise (exception : string).
Arguments Ok {A} a.
Arguments Raise {A} exception.

#[global] Instance Result_bind : MBind Result := λ A B k r,
  match r with
  | Ok a => k a
  | Raise e => Raise e
  end.

(** The values [get_flow_branch_keyword] returns. *)
Inductive PyVal :=
  | PyNone
  | PyInt (z : Z)
  | PyNode (n : Node).

Definition _EXECUTE_NODES : list string :=
  [ "funcdef"; "classdef"; "import_from"; "import_name"; "test"; "or_test";
    "and_test"; "not_test"; "comparison"; "expr"; "xor_expr"; "and_expr";
    "shift_expr"; "arith_expr"; "atom_expr"; "term"; "factor"; "power";
    "atom" ].

Definition _FLOW_KEYWORDS : list string :=
  [ "try"; "except"; "finally"; "else"; "if"; "elif"; "with"; "for";
    "while" ].

(** [s in strings] *)
Definition str_in (s : string) (l : list string) : bool :=
  existsb (String.eqb s) l.

(** [node in strings] *)
Definition node_in (n : Node) (l : list string) : bool :=
  existsb (node_eq_str n) l.

(** [children[-k]] for [k >= 1]. *)
Definition index_from_end (children : list Node) (k : nat) : Result Node :=
  if Nat.leb k (length children) then
    match children !! (length children - k) with
    | Some c => Ok c
    | None => Raise "IndexError"
    end
  else Raise "IndexError".

(** The branch [typ == 'name'] of [get_executable_nodes]. *)
Definition name_branch (root node : Node) (last_added : bool)
    : Result (list Node) :=
  let next_leaf := get_next_leaf root node in
  if negb last_added then
    match find_parent root (node_id node) with
    | None => Raise "AttributeError"
    | Some parent =>
        if negb (String.eqb (node_type parent) "param")
           && negb (from_option (fun l => node_eq_str l "=") false next_leaf)
        then Ok [node]
        else Ok []
    end
  else Ok [].

(** [for child in children: result += get_executable_nodes(child,
    last_added)], with the recursive call as [recurse]. *)
Definition over_children (recurse : Node → bool → Result (list Node))
    : list Node → bool → Result (list Node) :=
  fix go (cs : list Node) (last_added : bool) : Result (list Node) :=
    match cs with
    | [] => Ok []
    | child :: cs' =>
        r ← recurse child last_added;
        rs ← go cs' last_added;
        Ok (r ++ rs)%list
    end.

(** [get_executable_nodes(children[i])], with the recursive call as
    [recurse]. *)
Definition recurse_at (recurse : Node → bool → Result (list Node))
    : list Node → nat → Result (list Node) :=
  fix go (cs : list Node) (i : nat) : Result (list Node) :=
    match cs, i with
    | [], _ => Raise "IndexError"
    | c :: _, O => recurse c false
    | _ :: cs', S i' => go cs' i'
    end.

(** [get_executable_nodes]; [root] is the tree [node] belongs to, through
    which [node.parent] and [node.get_next_leaf()] are found. *)
Fixpoint get_executable_nodes (root node : Node) (last_added : bool)
    {struct node} : Result (list Node) :=
  match node with
  | Leaf _ typ _ _ _ =>
      if String.eqb typ "name" then name_branch root node last_added
      else if String.eqb typ "expr_stmt" then Raise "AttributeError"
      else if String.eqb typ "decorator" then Raise "AttributeError"
      else Ok []
  | BaseNode _ typ children =>
      if String.eqb typ "name" then name_branch root node last_added
      else if String.eqb typ "expr_stmt" then
        rs ← over_children (get_executable_nodes root) children true;
        Ok (node :: rs)
      else if String.eqb typ "decorator" then
        c2 ← index_from_end children 2;
        if node_eq_str c2 ")" then
          c3 ← index_from_end children 3;
          if negb (node_eq_str c3 "(") then
            recurse_at (get_executable_nodes root) children
              (length children - 3)
          else Ok []
        else Ok []
      else
        rs ← over_children (get_executable_nodes root) children last_added;
        Ok ((if str_in typ _EXECUTE_NODES && negb last_added
             then [node] else []) ++ rs)%list
  end.

(** The loop of [get_flow_branch_keyword] and the [return 0] after it. *)
Fixpoint flow_loop (start : Pos) (keyword : PyVal) (children : list Node)
    : PyVal :=
  match children with
  | [] => PyInt 0
  | child :: rest =>
      if pos_lt start (start_pos child) then keyword
      else
        let first_leaf := get_first_leaf child in
        if node_in first_leaf _FLOW_KEYWORDS
        then flow_loop start (PyNode first_leaf) rest
        else flow_loop start keyword rest
  end.

(** [get_flow_branch_keyword] *)
Definition get_flow_branch_keyword (flow_node node : Node) : Result PyVal :=
  let start := start_pos node in
  if negb (pos_lt (start_pos flow_node) start
           && pos_le start (end_pos flow_node))
  then Raise "ValueError"
  else
    match node_children flow_node with
    | None => Raise "AttributeError"
    | Some children => Ok (flow_loop start PyNone children)
    end.

(** [comp_for.children[-1]] followed by the loop of [get_comp_fors], with
    the recursive call as [recurse]: the last child is handed to the loop. *)
Definition at_last (recurse : Node → Result (list Node))
    : list Node → Result (list Node) :=
  fix go (cs : list Node) : Result (list Node) :=
    match cs with
    | [] => Raise "IndexError"
    | c :: cs' =>
        match cs' with
        | [] => recurse c
        | _ :: _ => go cs'
        end
    end.

(** The loop [while True] of [get_comp_fors], entered with [last]; the step
    [last = last.children[-1]] raises on a leaf and on a node without
    children. *)
Fixpoint comp_for_loop (last : Node) : Result (list Node) :=
  let step :=
    match last with
    | Leaf _ _ _ _ _ => Raise "AttributeError"
    | BaseNode _ _ children => at_last comp_for_loop children
    end in
  if String.eqb (node_type last) "comp_for" then
    rest ← step; Ok (last :: rest)
  else if negb (String.eqb (node_type last) "comp_if") then Ok []
  else step.

(** [get_comp_fors], as the list of the nodes the generator yields when it
    runs to its end. *)
Definition get_comp_fors (comp_for : Node) : Result (list Node) :=
  match comp_for with
  | Leaf _ _ _ _ _ => Raise "AttributeError"
  | BaseNode _ _ children =>
      rest ← at_last comp_for_loop children; Ok (comp_for :: rest)
  end.

(** [for_stmt_defines_one_name] *)
Definition for_stmt_defines_one_name (for_stmt : Node) : Result bool :=
  match for_stmt with
  | Leaf _ _ _ _ _ => Raise "AttributeError"
  | BaseNode _ _ children =>
      match children !! 1 with
      | Some c => Ok (String.eqb (node_type c) "name")
      | None => Raise "IndexError"
      end
  end.

(** The loop of [get_statement_of_position] over the children, with the
    recursive call as [recurse]; [is_flow_or_scope c] is
    [isinstance(c, (tree.Flow, tree.ClassOrFunc))].  An [AttributeError] of
    the recursive call is caught and the loop goes on. *)
Definition statement_loop (is_flow_or_scope : Node → bool)
    (recurse : Node → Result (option Node)) (pos : Pos)
    : list Node → Result (option Node) :=
  fix go (cs : list Node) : Result (option Node) :=
    match cs with
    | [] => Ok None
    | c :: cs' =>
        if pos_le (start_pos c) pos && pos_le pos (end_pos c) then
          if negb (str_in (node_type c) ["decorated"; "simple_stmt"; "suite"])
             && negb (is_flow_or_scope c)
          then Ok (Some c)
          else
            match recurse c with
            | Raise e =>
                if String.eqb e "AttributeError" then go cs' else Raise e
            | Ok r => Ok r
            end
        else go cs'
    end.

(** [get_statement_of_position] *)
Fixpoint get_statement_of_position (is_flow_or_scope : Node → bool)
    (node : Node) (pos : Pos) : Result (option Node) :=
  match node with
  | Leaf _ _ _ _ _ => Raise "AttributeError"
  | BaseNode _ _ children =>
      statement_loop is_flow_or_scope
        (fun c => get_statement_of_position is_flow_or_scope c pos) pos
        children
  end.

(** [c.lower()] on a character: the letters [A] to [Z] move to [a] to [z]. *)
Definition ascii_lower (c : Ascii.ascii) : Ascii.ascii :=
  let n := Ascii.nat_of_ascii c in
  if Nat.leb 65 n && Nat.leb n 90 then Ascii.ascii_of_nat (n + 32) else c.

(** [s.lower()] *)
Fixpoint lower (s : string) : string :=
  match s with
  | EmptyString => EmptyString
  | String c rest => String (ascii_lower c) (lower rest)
  end.

(** Whether [except SyntaxError] catches an exception, which is given by the
    name of its class: [SyntaxError] itself and the classes derived from it,
    [IndentationError] and its subclass [TabError]. *)
Definition is_SyntaxError (e : string) : bool :=
  str_in e ["SyntaxError"; "IndentationError"; "TabError"].

(** [safe_literal_eval]; [literal_eval] is the function of that name of
    [jedi._compatibility]. *)
Definition safe_literal_eval (literal_eval : string → Result string)
    (value : string) : Result string :=
  let first_two := lower (String.substring 0 2 value) in
  match first_two with
  | EmptyString => Raise "IndexError"
  | String first _ =>
      if String.eqb (String first EmptyString) "f"
         || str_in first_two ["fr"; "rf"]
      then Ok ""
      else
        match literal_eval value with
        | Raise e => if is_SyntaxError e then Ok "" else Raise e
        | Ok r => Ok r
        end
  end.

End ParserUtils.

(** * jedi/plugins/stdlib.py *)
Module StdlibPlugin.
Import Klass.

(** [builtins_type], the function behind
    [argument_clinic('object[, bases, dict], /')]: it receives the value sets
    of its three parameters.  [py__class__] is the method of that name of
    [ValueSet]. *)
Definition builtins_type (py__class__ : ValueSet → ValueSet)
    (objects bases dicts : ValueSet) : ValueSet :=
  if truthy bases || truthy dicts then NO_VALUES
  else py__class__ objects.

(** Modelled from the spec: the front-end of [builtins_type],
    [argument_clinic('object[, bases, dict], /')], whose code
    ([repack_with_argument_clinic] of jedi/inference/arguments.py) is not
    among the sources.  Each parameter of the declared shape receives the
    pre-inferred value set of the argument at its position, an optional
    parameter without an argument the empty set; a call whose number of
    arguments does not fit the shape does not reach the function.
    [arguments] are the positional arguments of the call. *)
Definition clinic_object_bases_dict (arguments : list LazyValue)
    : option (ValueSet * ValueSet * ValueSet) :=
  match arguments with
  | [object] => Some (infer object, NO_VALUES, NO_VALUES)
  | [object; bases] => Some (infer object, infer bases, NO_VALUES)
  | [object; bases; dict] => Some (infer object, infer bases, infer dict)
  | _ => None
  end.

(** *** SuperInstance *)

Record SuperInstance := {
  _instance : Value
}.

(** [SuperInstance._get_bases]: [self._instance.py__class__().py__bases__()];
    [None] when the wrapped value is not an instance of a known class. *)
Definition _get_bases (st : InferState) (self : SuperInstance)
    : option (list LazyValue) :=
  match _instance self with
  | VInstance c =>
      match classes st !! c with
      | Some cd => Some (py__bases__ st cd)
      | None => None
      end
  | _ => None
  end.

Section SuperInstance.
(** [Filter] is the type of filters, [execute_with_values] the method of
    [ValueSet] and [get_filters_of obj] the list [obj.get_filters()]
    yields; all three live in other modules of the engine. *)
Context {Filter : Type}.
Variable execute_with_values : ValueSet → ValueSet.
Variable get_filters_of : Value → list Filter.

(** [for obj in ...: for f in obj.get_filters(): yield f] *)
Fixpoint filters_over_objects (objs : ValueSet) : list Filter :=
  match objs with
  | [] => []
  | obj :: rest => get_filters_of obj ++ filters_over_objects rest
  end.

(** [for b in self._get_bases(): for obj in
    b.infer().execute_with_values(): ...] *)
Fixpoint filters_over_bases (bases : list LazyValue) : list Filter :=
  match bases with
  | [] => []
  | b :: rest =>
      filters_over_objects (execute_with_values (infer b))
      ++ filters_over_bases rest
  end.

(** [SuperInstance.get_filters], as the list of the filters it yields. *)
Definition get_filters (st : InferState) (self : SuperInstance)
    : option (list Filter) :=
  match _get_bases st self with
  | Some bases => Some (filters_over_bases bases)
  | None => None
  end.

(** [SuperInstance._get_wrapped_value]; [self._get_bases()[0]] raises
    [IndexError] on an empty list. *)
Definition _get_wrapped_value (st : InferState) (self : SuperInstance)
    : option Value :=
  match _get_bases st self with
  | Some (b :: _) =>
      match execute_with_values (infer b) with
      | [] => Some (_instance self)
      | obj :: _ => Some obj
      end
  | _ => None
  end.
End SuperInstance.

(** The arguments of a function execution and the value [builtins_super]
    is called in. *)
Inductive VarArgs :=
  | InstanceArguments (instance : Value)
  | OtherArguments.

Inductive ContextValue :=
  | FunctionExecutionValue (var_args : VarArgs)
  | OtherContextValue.

(** [builtins_super] *)
Definition builtins_super (types objects : ValueSet) (value : ContextValue)
    : list SuperInstance :=
  match value with
  | FunctionExecutionValue (InstanceArguments instance) =>
      [ {| _instance := instance |} ]
  | _ => []
  end.

(** *** functools.partial *)

Record ParamName := {
  string_name : string
}.

(** A signature, by what its [get_param_names()] returns. *)
Record Signature := {
  get_param_names : list ParamName
}.

Record PartialSignature := {
  _wrapped_signature : Signature;
  _skipped_arg_count : nat;
  _skipped_arg_set : gset string
}.

(** [PartialSignature.get_param_names] *)
Definition PartialSignature_get_param_names (self : PartialSignature)
    : list ParamName :=
  let names :=
    drop (_skipped_arg_count self) (get_param_names (_wrapped_signature self))
  in
  List.filter
    (fun n => bool_decide (string_name n ∉ _skipped_arg_set self)) names.

Record PartialObject := {
  _actual_value : Value;
  _arguments : Unpacked
}.

(** [PartialObject._get_function]: takes the first item off the iterator
    [unpacked_arguments]; the result comes with the rest of the iterator. *)
Definition _get_function (unpacked_arguments : Unpacked)
    : option ValueSet * Unpacked :=
  match unpacked_arguments with
  | [] => (None, [])
  | (Some _, _) :: rest => (None, rest)
  | (None, lazy_value) :: rest => (Some (infer lazy_value), rest)
  end.

(** The loop of [PartialObject.get_signatures] over the remaining
    arguments. *)
Fixpoint count_arguments (arg_count : nat) (keys : gset string)
    (unpacked_arguments : Unpacked) : nat * gset string :=
  match unpacked_arguments with
  | [] => (arg_count, keys)
  | (None, _) :: rest => count_arguments (arg_count + 1) keys rest
  | (Some key, _) :: rest => count_arguments arg_count (keys ∪ {[ key ]}) rest
  end.

(** [PartialObject.get_signatures]; [func_get_signatures] is the method
    [get_signatures] of [ValueSet]. *)
Definition get_signatures (func_get_signatures : ValueSet → list Signature)
    (self : PartialObject) : list PartialSignature :=
  let unpacked_arguments := _arguments self in
  match _get_function unpacked_arguments with
  | (None, _) => []
  | (Some func, unpacked_arguments) =>
      let '(arg_count, keys) := count_arguments 0 ∅ unpacked_arguments in
      map (fun s => {| _wrapped_signature := s;
                       _skipped_arg_count := arg_count;
                       _skipped_arg_set := keys |})
          (func_get_signatures func)
  end.

(** [PartialObject.py__call__]; [execute func arguments] is [func.execute]
    applied to arguments that unpack to [arguments]. *)
Definition MergedPartialArguments_unpack (partial_arguments : Unpacked)
    (call_arguments : Unpacked) : option Unpacked :=
  match partial_arguments with
  | [] => None
  | _ :: unpacked => Some (unpacked ++ call_arguments)%list
  end.

Definition PartialObject_py__call__
    (execute : ValueSet → option Unpacked → ValueSet)
    (self : PartialObject) (arguments : Unpacked) : ValueSet :=
  match _get_function (_arguments self) with
  | (None, _) => NO_VALUES
  | (Some func, _) =>
      execute func (MergedPartialArguments_unpack (_arguments self) arguments)
  end.

(** *** getattr *)

Section Getattr.
(** [get_str_or_none] is the function of jedi/inference/helpers.py and
    [py__getattribute__ obj name] the lookup of an attribute on a value. *)
Variable get_str_or_none : Value → option string.
Variable py__getattribute__ : Value → string → ValueSet.

(** [for name in names: ...] for one [obj]. *)
Fixpoint getattr_over_names (obj : Value) (names : ValueSet) : Loop ValueSet :=
  match names with
  | [] => Completed
  | name :: rest =>
      match get_str_or_none name with
      | None => getattr_over_names obj rest
      | Some string => Return (py__getattribute__ obj string)
      end
  end.

(** [for obj in objects: ...] *)
Fixpoint getattr_over_objects (objects names : ValueSet) : Loop ValueSet :=
  match objects with
  | [] => Completed
  | obj :: rest =>
      match getattr_over_names obj names with
      | Return r => Return r
      | Completed => getattr_over_objects rest names
      end
  end.

(** [builtins_getattr] *)
Definition builtins_getattr (objects names : ValueSet) : ValueSet :=
  match getattr_over_objects objects names with
  | Return r => r
  | Completed => NO_VALUES
  end.
End Getattr.

(** *** os.path.join *)

(** What [_os_path_join] returns: the set of one string object, or the
    result of [callback()]. *)
Inductive PathJoin :=
  | JoinLiteral (s : string)
  | JoinCallback.

Section PathJoin.
(** [py__iter__ sequence] lists the lazy values [sequence.py__iter__()]
    yields; [sep] is [os.path.sep]. *)
Variable get_str_or_none : Value → option string.
Variable py__iter__ : Value → list LazyValue.
Variable sep : string.

(** The loop over [sequence.py__iter__()] with its [else] clause. *)
Fixpoint join_loop (string : string) (is_first : bool)
    (lazy_values : list LazyValue) : PathJoin :=
  match lazy_values with
  | [] => JoinLiteral string
  | lazy_value :: rest =>
      match infer lazy_value with
      | [value] =>
          match get_str_or_none value with
          | None => JoinCallback
          | Some s =>
              let string :=
                if negb is_first then String.append string sep else string in
              join_loop (String.append string s) false rest
          end
      | _ => JoinCallback
      end
  end.

(** [_os_path_join] *)
Definition _os_path_join (args_set : ValueSet) : PathJoin :=
  match args_set with
  | [sequence] => join_loop "" true (py__iter__ sequence)
  | _ => JoinCallback
  end.
End PathJoin.

(** *** isinstance *)

Section Isinstance.
(** [class_of o] is [o.py__class__()]; [tuple_items v] lists the lazy values
    [v.iterate()] yields when [v] is a tuple of the builtins module, and is
    [None] for every other value. *)
Variable class_of : Value → Value.
Variable tuple_items : Value → option (list LazyValue).

(** [cls in mro] for a value and the list of classes of an MRO. *)
Definition in_mro (mro : list nat) (cls : Value) : bool :=
  match cls with
  | VClass c => bool_decide (c ∈ mro)
  | _ => false
  end.

(** [for cls_or_tup in types: ...]; a type that is neither a class nor a
    tuple only causes a diagnostic. *)
Fixpoint isinstance_over_types (mro : list nat) (bool_results : gset bool)
    (types : ValueSet) : gset bool :=
  match types with
  | [] => bool_results
  | cls_or_tup :: rest =>
      if is_class cls_or_tup then
        isinstance_over_types mro
          (bool_results ∪ {[ in_mro mro cls_or_tup ]}) rest
      else
        match tuple_items cls_or_tup with
        | Some lazy_values =>
            let classes := from_sets (map infer lazy_values) in
            isinstance_over_types mro
              (bool_results ∪ {[ existsb (in_mro mro) classes ]}) rest
        | None => isinstance_over_types mro bool_results rest
        end
  end.

(** [for o in objects: ...]: a class without [py__bases__] ends the loop
    with both answers.  [None] when an MRO is not completed. *)
Fixpoint isinstance_over_objects (st : InferState) (bool_results : gset bool)
    (objects types : ValueSet) : option (gset bool) :=
  match objects with
  | [] => Some bool_results
  | o :: rest =>
      match class_of o with
      | VClass c =>
          match py__mro__ (S (length (classes st))) st [] c with
          | Some mro =>
              isinstance_over_objects st
                (isinstance_over_types mro bool_results types) rest types
          | None => None
          end
      | _ => Some {[ true; false ]}
      end
  end.

(** [builtins_isinstance], as the set [bool_results] from which the result
    is built. *)
Definition builtins_isinstance (st : InferState) (objects types : ValueSet)
    : option (gset bool) :=
  isinstance_over_objects st ∅ objects types.
End Isinstance.

(** *** The dispatch of [execute] *)

(** [value.parent_context]: absent, the builtins module of the inference
    state, another module with its [py__name__()], or a context that is no
    module. *)
Inductive ParentContext :=
  | NoParent
  | BuiltinsModule
  | ModuleContext (py__name__ : string)
  | NotAModule.

(** What [execute] reads of a bound method: its [py__name__()] and the
    [py__name__()] of its class. *)
Record BoundMethod := {
  method_name : string;
  class_name : string
}.

(** What [execute] reads of the value that is called:
    [value.name.string_name] ([None] when the attribute is missing), the
    parent context, and whether the value is a [BoundMethod]. *)
Record Callee := {
  callee_name : option string;
  callee_parent : ParentContext;
  callee_bound : option BoundMethod
}.

(** What the wrapper of [execute] does: the generic call, the patch of
    [property.__get__], the instance of the property, or the function stored
    under a module and a name in [_implemented]. *)
Inductive Dispatch :=
  | Call
  | BuiltinsProperty
  | ReturnInstance
  | Implemented (module_name obj_name : string).

(** The keys of the dictionary [_implemented]. *)
Definition _implemented : list (string * list string) :=
  [ ("builtins", [ "getattr"; "type"; "super"; "reversed"; "isinstance";
                   "next"; "iter"; "staticmethod"; "classmethod" ]);
    ("copy", ["copy"; "deepcopy"]);
    ("json", ["load"; "loads"]);
    ("collections", ["namedtuple"]);
    ("functools", ["partial"; "wraps"]);
    ("_weakref", ["proxy"]);
    ("random", ["choice"]);
    ("operator", ["itemgetter"]);
    ("abc", ["abstractmethod"]);
    ("typing", ["_alias"]);
    ("dataclasses", ["dataclass"]);
    ("os.path", ["dirname"; "abspath"; "relpath"; "join"]) ].

(** [d[key]] on a dictionary; [None] stands for [KeyError]. *)
Fixpoint dict_get {V : Type} (d : list (string * V)) (key : string)
    : option V :=
  match d with
  | [] => None
  | (k, v) :: rest => if String.eqb k key then Some v else dict_get rest key
  end.

(** The wrapper [execute] puts around the call of a value. *)
Definition execute (value : Callee) : Dispatch :=
  match callee_name value with
  | None => Call
  | Some obj_name =>
      let module_name :=
        match callee_parent value with
        | BuiltinsModule => Some "builtins"
        | ModuleContext name => Some name
        | NoParent | NotAModule => None
        end in
      match module_name with
      | None => Call
      | Some module_name =>
          match callee_bound value with
          | Some bound =>
              if String.eqb module_name "builtins" then
                if String.eqb (method_name bound) "__get__" then
                  if String.eqb (class_name bound) "property"
                  then BuiltinsProperty else Call
                else if existsb (String.eqb (method_name bound))
                          ["deleter"; "getter"; "setter"] then
                  if String.eqb (class_name bound) "property"
                  then ReturnInstance else Call
                else Call
              else Call
          | None =>
              match dict_get _implemented module_name with
              | Some functions =>
                  if existsb (String.eqb obj_name) functions
                  then Implemented module_name obj_name else Call
              | None => Call
              end
          end
      end
  end.

End StdlibPlugin.

(** * Specification-side notions and sample programs *)
Module Spec.
Import Klass.

(** The positional arguments of the base-argument list, in the words of the
    specification: the arguments that carry no keyword; none when the list
    is absent. *)
Definition declared_bases (cd : ClassDef) : list LazyValue :=
  match get_super_arglist cd with
  | Some args => map snd (List.filter (fun a => bool_decide (a.1 = None)) args)
  | None => []
  end.

(** Every class a value of the state mentions has a definition. *)
Definition value_known (st : InferState) (v : Value) : bool :=
  match v with
  | VClass c => Nat.ltb c (length (classes st))
  | _ => true
  end.

Definition class_known (st : InferState) (cd : ClassDef) : bool :=
  match get_super_arglist cd with
  | Some args => forallb (fun a => forallb (value_known st) (infer a.2)) args
  | None => true
  end.

Definition closed (st : InferState) : bool :=
  forallb (value_known st) (builtins_object st)
  && forallb (class_known st) (classes st).

(** Looking up ['object'] in the builtins module gives one class, which is
    the root: it passes the test of [py__bases__] and declares no base. *)
Definition root_resolves (st : InferState) : bool :=
  match builtins_object st with
  | [VClass o] =>
      match classes st !! o with
      | Some od =>
          is_builtin_object st od
          && match declared_bases od with [] => true | _ => false end
      | None => false
      end
  | _ => false
  end.

(** [base_of st a b]: some base expression of class [a] may resolve to
    class [b]. *)
Definition base_of (st : InferState) (a b : nat) : Prop :=
  ∃ cd l, classes st !! a = Some cd ∧ l ∈ py__bases__ st cd
          ∧ VClass b ∈ infer l.

(** A class whose base expressions lead back to it. *)
Definition cyclic (st : InferState) (a : nat) : Prop := tc (base_of st) a a.

(** The classes among the members of a value set, in order. *)
Definition classes_of (vs : ValueSet) : list nat :=
  omap (fun v => match v with VClass c => Some c | _ => None end) vs.

(** The classes among the values of the bases, in declaration order. *)
Definition base_classes (bases : list LazyValue) : list nat :=
  classes_of (concat (map infer bases)).

(** [first_nonempty get cs r]: [r] is the first non-empty set among
    [get c] for [c] in [cs], and the empty set when there is none. *)
Inductive first_nonempty (get : nat → option ValueSet)
    : list nat → ValueSet → Prop :=
  | first_nonempty_none : first_nonempty get [] NO_VALUES
  | first_nonempty_here c rest vs :
      get c = Some vs → vs ≠ [] → first_nonempty get (c :: rest) vs
  | first_nonempty_skip c rest r :
      get c = Some [] → first_nonempty get rest r →
      first_nonempty get (c :: rest) r.


(** The scopes on the ancestor chain of a scope, itself first. *)
Fixpoint ancestors (node : ScopeNode) : list nat :=
  match node with
  | ModuleScope id => [id]
  | InnerScope id parent => id :: ancestors parent
  end.

(** The origin scope of the filter lies in the class the filter shows. *)
Definition origin_inside (f : ClassFilter) : Prop :=
  match _origin_scope f with
  | Some node => _parser_scope f ∈ ancestors node
  | None => False
  end.

(** What is asked of a member of the result of [get_executable_nodes]: a
    name has a parent that is no [param] and is not followed by [=]. *)
Definition name_is_read (root n : ParserUtils.Node) : Prop :=
  ParserUtils.node_type n = "name" →
  (∃ parent, ParserUtils.find_parent root (ParserUtils.node_id n) = Some parent
             ∧ ParserUtils.node_type parent ≠ "param")
  ∧ from_option (fun l => ParserUtils.node_eq_str l "=") false
      (ParserUtils.get_next_leaf root n)
    = false.

(** The number of pre-bound positional arguments of a partial object, the
    function put aside. *)
Definition prebound_positional (rest : Unpacked) : nat :=
  length (List.filter (fun a => bool_decide (a.1 = None)) rest).

(** The names of its pre-bound keyword arguments. *)
Definition prebound_keywords (rest : Unpacked) : list string :=
  omap fst rest.

(** A parameter list without its first [k] parameters and without the
    parameters named in [keywords]. *)
Definition remaining_params (k : nat) (keywords : list string)
    (params : list StdlibPlugin.ParamName) : list StdlibPlugin.ParamName :=
  List.filter
    (fun n => bool_decide (StdlibPlugin.string_name n ∉ keywords))
    (drop k params).

(** Modelled from the spec: [execute_with_values] of [ValueSet]
    (jedi/inference/base_value.py, not among the sources) for sets of
    classes: calling a class is [ClassMixin.py__call__], which gives one
    instance; other members contribute nothing here. *)
Definition execute_classes (vs : ValueSet) : ValueSet :=
  flat_map (fun v => match v with VClass c => py__call__ c | _ => [] end) vs.

(** Modelled from the spec: [get_filters] of an instance
    (jedi/inference/value/instance.py, not among the sources): one filter per
    entry of the method resolution order of its class.  A filter is
    represented by the class whose names it shows. *)
Definition instance_filters (st : InferState) (obj : Value) : list nat :=
  match obj with
  | VInstance c =>
      default [] (py__mro__ (S (length (classes st))) st [] c)
  | _ => []
  end.

(** [subnode n node]: [n] is [node] or lies below it in the tree. *)
Inductive subnode (n : ParserUtils.Node) : ParserUtils.Node → Prop :=
  | subnode_self : subnode n n
  | subnode_child id type children c :
      c ∈ children → subnode n c →
      subnode n (ParserUtils.BaseNode id type children).

(** No node of the tree is a decorator. *)
Fixpoint no_decorator (n : ParserUtils.Node) : bool :=
  match n with
  | ParserUtils.Leaf _ type _ _ _ => negb (String.eqb type "decorator")
  | ParserUtils.BaseNode _ type children =>
      negb (String.eqb type "decorator") && forallb no_decorator children
  end.

(** The span of [c] contains the position. *)
Definition spans (c : ParserUtils.Node) (pos : ParserUtils.Pos) : bool :=
  ParserUtils.pos_le (ParserUtils.start_pos c) pos
  && ParserUtils.pos_le pos (ParserUtils.end_pos c).

(** [reach_avoiding st active a x]: a chain of base expressions leads from
    class [a] to class [x] without entering a class of [active] and without
    passing a class twice. *)
Inductive reach_avoiding (st : InferState) : list nat → nat → nat → Prop :=
  | reach_here active a :
      a ∉ active → is_Some (classes st !! a) → reach_avoiding st active a a
  | reach_base active a b x :
      a ∉ active → base_of st a b → reach_avoiding st (a :: active) b x →
      reach_avoiding st active a x.

(** The order of positions: first the line, then the column. *)
Definition lex_lt (a b : ParserUtils.Pos) : Prop :=
  (a.1 < b.1 ∨ (a.1 = b.1 ∧ a.2 < b.2))%nat.

Definition lex_le (a b : ParserUtils.Pos) : Prop :=
  (a.1 < b.1 ∨ (a.1 = b.1 ∧ a.2 ≤ b.2))%nat.

(** A node of one of the kinds [get_executable_nodes] appends. *)
Definition appended_kind (n : ParserUtils.Node) : Prop :=
  ParserUtils.node_type n = "name" ∨ ParserUtils.node_type n = "expr_stmt"
  ∨ ParserUtils.str_in (ParserUtils.node_type n) ParserUtils._EXECUTE_NODES
    = true.

(** A step along a base expression into a class outside [avoid]. *)
Definition base_outside (st : InferState) (avoid : list nat) (a b : nat)
    : Prop :=
  base_of st a b ∧ b ∉ avoid.

(** Every string of the list with the separator in front of it. *)
Definition sep_prefixed (sep : string) (strs : list string) : string :=
  fold_right (fun x r => String.append sep (String.append x r)) "" strs.

(** [isinstance_answer st tuple_items c t b]: [b] is the answer to whether
    an object of class [c] is an instance of [t], for [t] a class or a
    tuple: [True] exactly when [t], or a class a member of the tuple [t]
    may resolve to, is reached from [c] by a chain of base expressions. *)
Definition isinstance_answer (st : InferState)
    (tuple_items : Value → option (list LazyValue))
    (c : nat) (t : Value) (b : bool) : Prop :=
  (is_class t = true
   ∧ (b = true ↔ ∃ k, t = VClass k ∧ rtc (base_of st) c k))
  ∨ (is_class t = false
     ∧ ∃ lazy_values, tuple_items t = Some lazy_values
         ∧ (b = true ↔ ∃ l k, l ∈ lazy_values ∧ VClass k ∈ infer l
                              ∧ rtc (base_of st) c k)).

(** A literal with the prefix of a format string: [f] or [F] in first
    place, or [r] and [f], in either case, in the first two places. *)
Definition f_literal (value : string) : bool :=
  existsb (fun p => startswith p value) ["f"; "F"; "rf"; "rF"; "Rf"; "RF"].

(** No chain of base expressions that starts at class [c] meets a class
    that lies on a cycle. *)
Definition reaches_no_cycle (st : InferState) (c : nat) : Prop :=
  ∀ x, rtc (base_of st) c x → ¬ cyclic st x.

(** The classes of [active] are under computation when class [self] is
    asked for: each of them reaches [self] through base expressions. *)
Definition in_progress (st : InferState) (active : list nat) (self : nat)
    : Prop :=
  ∀ a, a ∈ active → tc (base_of st) a self.

(** Every base expression of a class resolves to classes defined before
    it, the classes being numbered in the order of their definition. *)
Definition defined_before (st : InferState) : bool :=
  forallb
    (fun icd : nat * ClassDef =>
       forallb
         (fun l => forallb
                     (fun v => match v with
                               | VClass b => Nat.ltb b icd.1
                               | _ => true
                               end)
                     (infer l))
         (py__bases__ st icd.2))
    (imap pair (classes st)).

End Spec.

(** Sample programs. *)
Module Samples.
Import Klass.

(** [class object: ...] of the builtins module, which is context [0]. *)
Definition object_def : ClassDef :=
  {| py__name__ := "object"; parent_context := 0; get_super_arglist := None |}.

(** A class without argument list, defined in module [1]. *)
Definition plain_def (name : string) : ClassDef :=
  {| py__name__ := name; parent_context := 1; get_super_arglist := None |}.

(** A class of module [1] with the given argument list. *)
Definition class_def (name : string) (args : Unpacked) : ClassDef :=
  {| py__name__ := name; parent_context := 1;
     get_super_arglist := Some args |}.

(** A positional argument that names class [c]. *)
Definition base (c : nat) : option string * LazyValue :=
  (None, LazyTreeValue [VClass c]).

Definition state_of (cs : list ClassDef) : InferState :=
  {| builtins_module := 0; builtins_object := [VClass 0];
     classes := object_def :: cs |}.

(** [class C: pass] *)
Definition st_plain : InferState := state_of [plain_def "C"].

(** [class A(B): pass] and [class B(A): pass]: classes [1] and [2]. *)
Definition st_cyclic : InferState :=
  state_of [class_def "A" [base 2]; class_def "B" [base 1]].

(** [class Meta: pass], [class Base(metaclass=Meta): pass],
    [class Derived(Base): pass]: classes [1], [2] and [3]. *)
Definition st_meta : InferState :=
  state_of [ plain_def "Meta";
             class_def "Base" [(Some "metaclass", LazyTreeValue [VClass 1])];
             class_def "Derived" [base 2] ].

(** [class A: pass], [class B: pass], [class C(A, B): pass]: classes [1],
    [2] and [3]. *)
Definition st_two_bases : InferState :=
  state_of [plain_def "A"; plain_def "B"; class_def "C" [base 1; base 2]].

(** The names bound by [__secret = 1] and [__secret__ = 2]. *)
Definition assignment : DefinitionNode :=
  {| def_type := "expr_stmt"; child1_type := "operator";
     annotation_code := "" |}.

Definition secret_name : TreeName :=
  {| value := "__secret"; get_definition := Some assignment |}.

Definition dunder_name : TreeName :=
  {| value := "__secret__"; get_definition := Some assignment |}.

(** The class is scope [5] of module [0]; [9] is another class of the
    module and [7] a method of class [5]. *)
Definition filter_from (origin : option ScopeNode) : ClassFilter :=
  {| filter_value := VClass 1; _parser_scope := 5; _origin_scope := origin |}.

Definition outside_scope : ScopeNode := InnerScope 9 (ModuleScope 0).

Definition method_scope : ScopeNode :=
  InnerScope 7 (InnerScope 5 (ModuleScope 0)).

(** [functools.partial(f, 1, c=9)] for [def f(a, b, c)]: the function is
    value [7], the arguments are values [1] and [9]. *)
Definition sig_abc : StdlibPlugin.Signature :=
  {| StdlibPlugin.get_param_names :=
       [ {| StdlibPlugin.string_name := "a" |};
         {| StdlibPlugin.string_name := "b" |};
         {| StdlibPlugin.string_name := "c" |} ] |}.

Definition signatures_of_f (func : ValueSet) : list StdlibPlugin.Signature :=
  if bool_decide (VOther 7 ∈ func) then [sig_abc] else [].

Definition partial_f : StdlibPlugin.PartialObject :=
  {| StdlibPlugin._actual_value := VInstance 0;
     StdlibPlugin._arguments :=
       [ (None, LazyTreeValue [VOther 7]);
         (None, LazyTreeValue [VOther 1]);
         (Some "c", LazyTreeValue [VOther 9]) ] |}.

(** The proxy [super()] gives in a method of [C(A, B)]. *)
Definition super_of_C : StdlibPlugin.SuperInstance :=
  {| StdlibPlugin._instance := VInstance 3 |}.

(** The names bound by [x: ClassVar[int] = 1] and [y: int = 2]. *)
Definition annotated (code : string) : DefinitionNode :=
  {| def_type := "expr_stmt"; child1_type := "annassign";
     annotation_code := code |}.

Definition classvar_name : TreeName :=
  {| value := "x"; get_definition := Some (annotated "ClassVar[int]") |}.

Definition instance_var_name : TreeName :=
  {| value := "y"; get_definition := Some (annotated "int") |}.

(** [py__class__()] of the instances of the classes of a state; other
    values have a class that is not one of them. *)
Definition class_of_instance (v : Value) : Value :=
  match v with
  | VInstance c => VClass c
  | _ => VOther 0
  end.

(** [py__class__()] of a value set. *)
Definition classes_of_instances (objects : ValueSet) : ValueSet :=
  ValueSet_of (map class_of_instance objects).

(** The arguments of [type(x, undefined_a, undefined_b)], [x] an instance
    of class [1]: the two names that are not defined infer to no value. *)
Definition type_of_x_and_two_unresolved : list LazyValue :=
  [LazyTreeValue [VInstance 1]; LazyTreeValue []; LazyTreeValue []].

(** The arguments of [type('C', (A,), {})]: a string, a tuple, a dict. *)
Definition type_creation : list LazyValue :=
  [LazyTreeValue [VOther 1]; LazyTreeValue [VOther 2]; LazyTreeValue [VOther 3]].

End Samples.

(** Sample syntax trees. *)
Module Trees.
Import ParserUtils.

Definition newline : string := String (Ascii.ascii_of_nat 10) "".

(** [if x:] / [    y], lines 1 and 2. *)
Definition kw_if : Node := Leaf 1 "keyword" "if" (1, 0) (1, 2).
Definition name_x : Node := Leaf 2 "name" "x" (1, 3) (1, 4).
Definition colon_1 : Node := Leaf 3 "operator" ":" (1, 4) (1, 5).
Definition name_y : Node := Leaf 6 "name" "y" (2, 4) (2, 5).
Definition suite_y : Node :=
  BaseNode 4 "suite"
    [ Leaf 5 "newline" newline (1, 5) (2, 0);
      BaseNode 7 "simple_stmt"
        [ name_y; Leaf 8 "newline" newline (2, 5) (3, 0) ] ].

Definition if_stmt : Node :=
  BaseNode 10 "if_stmt" [kw_if; name_x; colon_1; suite_y].

(** The same statement followed by [else:] / [    z], lines 3 and 4. *)
Definition kw_else : Node := Leaf 11 "keyword" "else" (3, 0) (3, 4).
Definition name_z : Node := Leaf 15 "name" "z" (4, 4) (4, 5).
Definition suite_z : Node :=
  BaseNode 13 "suite"
    [ Leaf 14 "newline" newline (3, 5) (4, 0);
      BaseNode 16 "simple_stmt"
        [ name_z; Leaf 17 "newline" newline (4, 5) (5, 0) ] ].

Definition if_else_stmt : Node :=
  BaseNode 20 "if_stmt"
    [ kw_if; name_x; colon_1; suite_y;
      kw_else; Leaf 12 "operator" ":" (3, 4) (3, 5); suite_z ].

(** [def f(a): return g(k=b)] *)
Definition name_f : Node := Leaf 2 "name" "f" (1, 4) (1, 5).
Definition name_a : Node := Leaf 5 "name" "a" (1, 6) (1, 7).
Definition name_g : Node := Leaf 13 "name" "g" (1, 17) (1, 18).
Definition name_k : Node := Leaf 17 "name" "k" (1, 19) (1, 20).
Definition name_b : Node := Leaf 19 "name" "b" (1, 21) (1, 22).

Definition call_g : Node :=
  BaseNode 12 "atom_expr"
    [ name_g;
      BaseNode 14 "trailer"
        [ Leaf 15 "operator" "(" (1, 18) (1, 19);
          BaseNode 16 "argument"
            [ name_k; Leaf 18 "operator" "=" (1, 20) (1, 21); name_b ];
          Leaf 20 "operator" ")" (1, 22) (1, 23) ] ].

Definition funcdef_f : Node :=
  BaseNode 0 "funcdef"
    [ Leaf 1 "keyword" "def" (1, 0) (1, 3);
      name_f;
      BaseNode 3 "parameters"
        [ Leaf 4 "operator" "(" (1, 5) (1, 6);
          BaseNode 21 "param" [name_a];
          Leaf 6 "operator" ")" (1, 7) (1, 8) ];
      Leaf 7 "operator" ":" (1, 8) (1, 9);
      BaseNode 8 "simple_stmt"
        [ BaseNode 9 "return_stmt"
            [ Leaf 10 "keyword" "return" (1, 10) (1, 16); call_g ];
          Leaf 11 "newline" newline (1, 23) (2, 0) ] ].

Definition module_f : Node := BaseNode 22 "file_input" [funcdef_f].

(** [[a for x in xs if x for y in ys]]: the comprehension clauses
    [for x in xs] ([comp_for 30]), [if x] and [for y in ys]. *)
Definition inner_comp_for : Node :=
  BaseNode 40 "comp_for"
    [ Leaf 41 "keyword" "for" (1, 22) (1, 25);
      Leaf 42 "name" "y" (1, 26) (1, 27);
      Leaf 43 "keyword" "in" (1, 28) (1, 30);
      Leaf 44 "name" "ys" (1, 31) (1, 33) ].

Definition comp_if_x : Node :=
  BaseNode 35 "comp_if"
    [ Leaf 36 "keyword" "if" (1, 17) (1, 19);
      Leaf 37 "name" "x" (1, 20) (1, 21);
      inner_comp_for ].

Definition outer_comp_for : Node :=
  BaseNode 30 "comp_for"
    [ Leaf 31 "keyword" "for" (1, 3) (1, 6);
      Leaf 32 "name" "x" (1, 7) (1, 8);
      Leaf 33 "keyword" "in" (1, 9) (1, 11);
      Leaf 34 "name" "xs" (1, 12) (1, 14);
      comp_if_x ].

(** The module that holds [if x: y]. *)
Definition module_if : Node := BaseNode 50 "file_input" [if_stmt].

(** [isinstance(c, (tree.Flow, tree.ClassOrFunc))] by the type of the
    node. *)
Definition flow_or_scope (c : Node) : bool :=
  str_in (node_type c)
    [ "if_stmt"; "while_stmt"; "for_stmt"; "try_stmt"; "with_stmt";
      "classdef"; "funcdef"; "lambdef" ].

(** [x = y] as an [expr_stmt]. *)
Definition assign_xy : Node :=
  BaseNode 60 "expr_stmt"
    [ Leaf 61 "name" "x" (1, 0) (1, 1);
      Leaf 62 "operator" "=" (1, 2) (1, 3);
      Leaf 63 "name" "y" (1, 4) (1, 5) ].

End Trees.

(** * Properties of the class model *)
Import Klass Spec Samples.
Open Scope nat_scope.
Open Scope list_scope.

(** ** Base classes *)

Lemma positional_declared (args : Unpacked) :
  positional args
  = map snd (List.filter (fun a => bool_decide (a.1 = None)) args).
Proof.
  induction args as [|[[key|] value] args IH]; simpl; [done| |].
  - exact IH.
  - by rewrite IH.
Qed.

Lemma py__bases___declared st cd :
  declared_bases cd ≠ [] → py__bases__ st cd = declared_bases cd.
Proof.
  unfold py__bases__, declared_bases, _get_bases_arguments.
  destruct (get_super_arglist cd) as [args|]; [|done].
  rewrite <- positional_declared.
  by destruct (positional args).
Qed.

Lemma py__bases___default st cd :
  declared_bases cd = [] → py__bases__ st cd = default_bases st cd.
Proof.
  unfold py__bases__, declared_bases, _get_bases_arguments.
  destruct (get_super_arglist cd) as [args|]; [|done].
  rewrite <- positional_declared.
  by intros ->.
Qed.

(** C3. [py__bases__()] returns exactly the positional arguments of the
    base-argument list (a base is an argument without keyword, so
    [metaclass=] and every other keyword argument is left out) when there is
    such an argument; when there is none, because the list is absent or holds
    keyword arguments only, it returns the empty list for the class named
    [object] of the builtins module and otherwise the single lazy value
    [LazyKnownValues] of the builtin [object]. *)
Theorem py__bases___spec (st : InferState) (cd : ClassDef) :
  (∀ args, get_super_arglist cd = Some args →
     ∀ l, l ∈ declared_bases cd ↔ (None, l) ∈ args)
  ∧ (declared_bases cd ≠ [] → py__bases__ st cd = declared_bases cd)
  ∧ (declared_bases cd = [] → is_builtin_object st cd = true →
       py__bases__ st cd = [])
  ∧ (declared_bases cd = [] → is_builtin_object st cd = false →
       py__bases__ st cd = [LazyKnownValues (builtins_object st)]
       ∧ map infer (py__bases__ st cd) = [builtins_object st]).
Proof.
  split; [|split; [|split]].
  - intros args Hargs l. unfold declared_bases. rewrite Hargs.
    rewrite list_elem_of_fmap. split.
    + intros ([key l'] & -> & Hin). apply list_elem_of_In, filter_In in Hin.
      destruct Hin as [Hin Hkey]. apply bool_decide_eq_true in Hkey.
      simpl in *. subst key. by apply list_elem_of_In.
    + intros Hin. exists (None, l). split; [done|].
      apply list_elem_of_In, filter_In. split; [by apply list_elem_of_In|].
      by apply bool_decide_eq_true.
  - apply py__bases___declared.
  - intros Hnone Hroot. rewrite py__bases___default by done.
    unfold default_bases. by rewrite Hroot.
  - intros Hnone Hroot. rewrite py__bases___default by done.
    unfold default_bases. by rewrite Hroot.
Qed.

(** [class Base(metaclass=Meta)]: the argument list is present and holds a
    keyword argument only, so the implicit base is used. *)
Example py__bases___keyword_only :
  py__bases__ st_meta
    (class_def "Base" [(Some "metaclass"%string, LazyTreeValue [VClass 1])])
  = [LazyKnownValues [VClass 0]].
Proof. reflexivity. Qed.

(** ** Method resolution order *)

Lemma mro_append_new_prefix (mro yielded : list nat) :
  mro `prefix_of` mro_append_new mro yielded.
Proof.
  revert mro. induction yielded as [|c ys IH]; intros mro; simpl; [done|].
  case_bool_decide; [apply IH|].
  etrans; [|apply IH]. by apply prefix_app_r.
Qed.

Lemma mro_append_new_NoDup (mro yielded : list nat) :
  NoDup mro → NoDup (mro_append_new mro yielded).
Proof.
  revert mro. induction yielded as [|c ys IH]; intros mro Hnd; simpl; [done|].
  case_bool_decide; [by apply IH|].
  apply IH. apply NoDup_app. split; [done|]. split.
  - intros x Hx Hc. apply list_elem_of_singleton in Hc. by subst.
  - apply NoDup_singleton.
Qed.

Lemma mro_over_values_inv mro_method mro vs r :
  mro_over_values mro_method mro vs = Some r →
  NoDup mro → mro `prefix_of` r ∧ NoDup r.
Proof.
  revert mro. induction vs as [|v vs IH]; intros mro Hr Hnd; simpl in Hr.
  - by simplify_eq.
  - destruct v as [c| |]; [|by apply IH..].
    destruct (mro_method c) as [ys|]; [|done].
    apply IH in Hr; [|by apply mro_append_new_NoDup].
    destruct Hr as [Hpre Hnd']. split; [|done].
    etrans; [apply mro_append_new_prefix|done].
Qed.

Lemma mro_over_bases_inv mro_method mro bases r :
  mro_over_bases mro_method mro bases = Some r →
  NoDup mro → mro `prefix_of` r ∧ NoDup r.
Proof.
  revert mro. induction bases as [|b bases IH]; intros mro Hr Hnd; simpl in Hr.
  - by simplify_eq.
  - destruct (mro_over_values _ _ _) as [mro'|] eqn:Hv; [|done].
    apply mro_over_values_inv in Hv as [Hpre Hnd']; [|done].
    apply IH in Hr as [Hpre' Hnd'']; [|done].
    split; [by etrans|done].
Qed.

Lemma py__mro___unfold fuel st active self :
  py__mro__ (S fuel) st active self
  = cycle_safe [] active self
      match classes st !! self with
      | None => None
      | Some cd =>
          mro_over_bases (py__mro__ fuel st (self :: active)) [self]
            (py__bases__ st cd)
      end.
Proof. reflexivity. Qed.

(** Whatever the nested calls yield, a completed [py__mro__] starts with the
    class itself and repeats no class. *)
Lemma py__mro___inv fuel st active self mro :
  py__mro__ fuel st active self = Some mro → self ∉ active →
  head mro = Some self ∧ NoDup mro.
Proof.
  destruct fuel as [|fuel]; [done|]. simpl. unfold cycle_safe.
  intros Hr Hself. rewrite bool_decide_eq_false_2 in Hr by done.
  destruct (classes st !! self) as [cd|]; [|done].
  apply mro_over_bases_inv in Hr as [[k ->] Hnd]; [|apply NoDup_singleton].
  done.
Qed.

(** *** Completion of the evaluation *)

Lemma positional_elem (args : Unpacked) (l : LazyValue) :
  l ∈ positional args → ∃ key, (key, l) ∈ args.
Proof.
  induction args as [|[[key|] value] args IH]; simpl; intros Hin.
  - by apply elem_of_nil in Hin.
  - destruct (IH Hin) as [k Hk]. exists k. by right.
  - apply elem_of_cons in Hin as [->|Hin].
    + exists None. by left.
    + destruct (IH Hin) as [k Hk]. exists k. by right.
Qed.

Lemma closed_bases_known st c cd l v :
  closed st = true → classes st !! c = Some cd →
  l ∈ py__bases__ st cd → v ∈ infer l → value_known st v = true.
Proof.
  unfold closed. intros [Hobj Hcls]%andb_prop Hcd Hl Hv.
  rewrite forallb_forall in Hobj, Hcls.
  assert (class_known st cd = true) as Hknown.
  { apply Hcls, list_elem_of_In. by eapply list_elem_of_lookup_2. }
  assert (l ∈ default_bases st cd → value_known st v = true) as Hdefault.
  { unfold default_bases. destruct (is_builtin_object st cd).
    - by intros ?%elem_of_nil.
    - intros ->%list_elem_of_singleton. simpl in Hv.
      by apply Hobj, list_elem_of_In. }
  unfold py__bases__, _get_bases_arguments in Hl.
  unfold class_known in Hknown.
  destruct (get_super_arglist cd) as [args|]; [|by apply Hdefault].
  destruct (positional args) as [|l0 ls] eqn:Hpos; [by apply Hdefault|].
  rewrite <- Hpos in Hl. apply positional_elem in Hl as [key Hl].
  rewrite forallb_forall in Hknown.
  apply list_elem_of_In, Hknown in Hl. simpl in Hl.
  rewrite forallb_forall in Hl. by apply Hl, list_elem_of_In.
Qed.

Lemma active_bound (n : nat) (active : list nat) :
  NoDup active → (∀ a, a ∈ active → a < n) → length active ≤ n.
Proof.
  intros Hnd Hlt.
  assert (active ⊆+ seq 0 n) as Hsub.
  { apply NoDup_submseteq; [done|]. intros a Ha. apply elem_of_seq.
    specialize (Hlt a Ha). lia. }
  apply submseteq_length in Hsub. by rewrite length_seq in Hsub.
Qed.

Lemma mro_over_values_is_Some mro_method mro vs :
  (∀ c, VClass c ∈ vs → is_Some (mro_method c)) →
  is_Some (mro_over_values mro_method mro vs).
Proof.
  revert mro. induction vs as [|v vs IH]; intros mro Hsub; simpl; [done|].
  assert (∀ c, VClass c ∈ vs → is_Some (mro_method c)) as Hrest.
  { intros c Hc. apply Hsub. by right. }
  destruct v as [c| |]; [|by apply IH..].
  destruct (Hsub c) as [ys ->]; [by left|]. by apply IH.
Qed.

Lemma mro_over_bases_is_Some mro_method mro bases :
  (∀ l c, l ∈ bases → VClass c ∈ infer l → is_Some (mro_method c)) →
  is_Some (mro_over_bases mro_method mro bases).
Proof.
  revert mro. induction bases as [|b bases IH]; intros mro Hsub; simpl; [done|].
  destruct (mro_over_values_is_Some mro_method mro (infer b)) as [mro' ->].
  { intros c Hc. apply (Hsub b); [by left|done]. }
  apply IH. intros l c Hl Hc. apply (Hsub l); [by right|done].
Qed.

(** With the classes under computation recorded in [active], a nesting
    depth of one more than the number of classes not yet active suffices. *)
Lemma py__mro___is_Some st fuel active self :
  closed st = true →
  NoDup active → (∀ a, a ∈ active → a < length (classes st)) →
  self < length (classes st) →
  length (classes st) < fuel + length active →
  is_Some (py__mro__ fuel st active self).
Proof.
  intros Hclosed. revert active self.
  induction fuel as [|fuel IH]; intros active self Hnd Hact Hself Hfuel.
  - pose proof (active_bound _ _ Hnd Hact). lia.
  - simpl. unfold cycle_safe. case_bool_decide as Hin; [done|].
    destruct (lookup_lt_is_Some_2 _ _ Hself) as [cd Hcd]. rewrite Hcd.
    apply mro_over_bases_is_Some. intros l c Hl Hc.
    pose proof (closed_bases_known _ _ _ _ _ Hclosed Hcd Hl Hc) as Hk.
    simpl in Hk. apply Nat.ltb_lt in Hk.
    apply IH; [|intros a [->|Ha]%elem_of_cons; [done|by apply Hact]
              |done|simpl; lia].
    by apply NoDup_cons.
Qed.

Lemma py__mro___of_root st fuel active o od :
  classes st !! o = Some od → is_builtin_object st od = true →
  declared_bases od = [] → o ∉ active →
  py__mro__ (S fuel) st active o = Some [o].
Proof.
  intros Hod Hroot Hnone Hact. simpl. unfold cycle_safe.
  rewrite bool_decide_eq_false_2 by done. rewrite Hod.
  rewrite py__bases___default by done. unfold default_bases.
  by rewrite Hroot.
Qed.

(** C1. For every class [C] of a closed state, [py__mro__()] completes, the
    sequence it yields begins with [C] and contains no class twice; and
    when [C] declares no base and ['object'] of the builtin scope resolves
    to the root class, the sequence ends with the builtin root class. *)
Theorem py__mro___begins_with_self_without_duplicates
    (st : InferState) (self : nat) (cd : ClassDef) :
  closed st = true → classes st !! self = Some cd →
  ∃ mro, py__mro__ (S (length (classes st))) st [] self = Some mro
    ∧ head mro = Some self
    ∧ NoDup mro
    ∧ (declared_bases cd = [] → root_resolves st = true →
       ∃ root rd, last mro = Some root ∧ classes st !! root = Some rd
                  ∧ is_builtin_object st rd = true).
Proof.
  intros Hclosed Hcd.
  assert (self < length (classes st)) as Hself by by eapply lookup_lt_Some.
  destruct (py__mro___is_Some st (S (length (classes st))) [] self)
    as [mro Hmro]; [done|apply NoDup_nil_2|by intros a ?%elem_of_nil|done
                    |simpl; lia|].
  exists mro. split; [done|].
  destruct (py__mro___inv _ _ _ _ _ Hmro) as [Hhead Hnd];
    [by intros ?%elem_of_nil|].
  split; [done|]. split; [done|].
  intros Hnone Hres. unfold root_resolves in Hres.
  destruct (builtins_object st) as [|[o| |] [|]] eqn:Hobj; try done.
  destruct (classes st !! o) as [od|] eqn:Hod; [|done].
  apply andb_prop in Hres as [Hroot Hod_none].
  destruct (declared_bases od) eqn:Hdb; [|done].
  rewrite py__mro___unfold in Hmro. unfold cycle_safe in Hmro.
  rewrite bool_decide_eq_false_2 in Hmro by by intros ?%elem_of_nil.
  rewrite Hcd in Hmro. rewrite py__bases___default in Hmro by done.
  unfold default_bases in Hmro.
  destruct (is_builtin_object st cd) eqn:Hcroot.
  - simpl in Hmro. simplify_eq. by exists self, cd.
  - rewrite Hobj in Hmro. cbn [mro_over_bases mro_over_values infer] in Hmro.
    assert (o ≠ self) as Hne by (intros ->; congruence).
    destruct (length (classes st)) as [|n] eqn:Hlen; [lia|].
    rewrite (py__mro___of_root st n [self] o od) in Hmro;
      [|done..|by intros ?%list_elem_of_singleton].
    simpl in Hmro. rewrite bool_decide_eq_false_2 in Hmro
      by by intros ?%list_elem_of_singleton.
    simplify_eq. by exists o, od.
Qed.

Lemma py__mro___witness :
  ∃ mro, py__mro__ 3 st_plain [] 1 = Some mro
    ∧ head mro = Some 1
    ∧ NoDup mro
    ∧ ∃ root rd, last mro = Some root ∧ classes st_plain !! root = Some rd
                 ∧ is_builtin_object st_plain rd = true.
Proof.
  destruct (py__mro___begins_with_self_without_duplicates
              st_plain 1 (plain_def "C") eq_refl eq_refl)
    as (mro & Hmro & Hhead & Hnd & Hlast).
  exists mro. repeat split; [exact Hmro|exact Hhead|exact Hnd|].
  apply Hlast; reflexivity.
Defined.

Lemma mro_over_values_mono (m m' : nat → option (list nat)) mro vs r :
  (∀ c ys, m c = Some ys → m' c = Some ys) →
  mro_over_values m mro vs = Some r → mro_over_values m' mro vs = Some r.
Proof.
  intros Hm. revert mro. induction vs as [|v vs IH]; intros mro; simpl; [done|].
  destruct v as [c| |]; [|by apply IH..].
  destruct (m c) as [ys|] eqn:Hc; [|done].
  rewrite (Hm _ _ Hc). apply IH.
Qed.

Lemma mro_over_bases_mono (m m' : nat → option (list nat)) mro bases r :
  (∀ c ys, m c = Some ys → m' c = Some ys) →
  mro_over_bases m mro bases = Some r → mro_over_bases m' mro bases = Some r.
Proof.
  intros Hm. revert mro.
  induction bases as [|b bases IH]; intros mro; simpl; [done|].
  destruct (mro_over_values m mro (infer b)) as [mro'|] eqn:Hv; [|done].
  rewrite (mro_over_values_mono _ _ _ _ _ Hm Hv). apply IH.
Qed.

(** More fuel does not change a result. *)
Lemma py__mro___mono st fuel fuel' active self r :
  fuel ≤ fuel' → py__mro__ fuel st active self = Some r →
  py__mro__ fuel' st active self = Some r.
Proof.
  revert fuel' active self r.
  induction fuel as [|fuel IH]; intros fuel' active self r Hle; [done|].
  destruct fuel' as [|fuel']; [lia|].
  rewrite !py__mro___unfold. unfold cycle_safe.
  case_bool_decide; [done|].
  destruct (classes st !! self) as [cd|]; [|done].
  apply mro_over_bases_mono. intros c ys. apply IH. lia.
Qed.

(** C2. For every class [A] whose base expressions lead back to [A],
    [py__mro__()] completes within a nesting depth of the number of classes
    plus one (and gives the same sequence at every larger depth), the
    sequence contains [A] exactly once, and a class whose computation is
    under way is not expanded again.  [py__bases__] is a function without
    recursion: it returns for every class. *)
Theorem py__mro___cyclic_terminates
    (st : InferState) (a : nat) (cd : ClassDef) :
  closed st = true → classes st !! a = Some cd → cyclic st a →
  (∃ mro, (∀ fuel, length (classes st) < fuel →
             py__mro__ fuel st [] a = Some mro)
     ∧ count_occ Nat.eq_dec mro a = 1)
  ∧ (∀ fuel active, a ∈ active → py__mro__ (S fuel) st active a = Some [])
  ∧ (∃ bases, py__bases__ st cd = bases
       ∧ ∀ l, l ∈ bases → l ∈ default_bases st cd ∨ l ∈ declared_bases cd).
Proof.
  intros Hclosed Hcd _.
  assert (a < length (classes st)) as Ha by by eapply lookup_lt_Some.
  split; [|split].
  - destruct (py__mro___is_Some st (S (length (classes st))) [] a)
      as [mro Hmro]; [done|apply NoDup_nil_2|by intros ? ?%elem_of_nil|done
                      |simpl; lia|].
    exists mro. split.
    + intros fuel Hfuel. eapply py__mro___mono; [|done]. lia.
    + destruct (py__mro___inv _ _ _ _ _ Hmro) as [Hhead Hnd];
        [by intros ?%elem_of_nil|].
      apply NoDup_ListNoDup in Hnd.
      pose proof (proj1 (NoDup_count_occ Nat.eq_dec mro) Hnd a) as Hle.
      destruct mro as [|x mro]; [done|]. simpl in Hhead. simplify_eq.
      assert (count_occ Nat.eq_dec (a :: mro) a > 0) as Hpos.
      { apply count_occ_In. by left. }
      lia.
  - intros fuel active Hact. rewrite py__mro___unfold. unfold cycle_safe.
    by rewrite bool_decide_eq_true_2.
  - exists (py__bases__ st cd). split; [done|]. intros l Hl.
    destruct (decide (declared_bases cd = [])) as [Hnone|Hsome].
    + left. by rewrite <- py__bases___default.
    + right. by rewrite <- (py__bases___declared st).
Qed.

Lemma py__mro___cyclic_witness :
  (∃ mro, (∀ fuel, 3 < fuel → py__mro__ fuel st_cyclic [] 1 = Some mro)
     ∧ count_occ Nat.eq_dec mro 1 = 1)
  ∧ (∀ fuel active, 1 ∈ active → py__mro__ (S fuel) st_cyclic active 1 = Some [])
  ∧ (∃ bases, py__bases__ st_cyclic (class_def "A" [base 2]) = bases
       ∧ ∀ l, l ∈ bases → l ∈ default_bases st_cyclic (class_def "A" [base 2])
                          ∨ l ∈ declared_bases (class_def "A" [base 2])).
Proof.
  apply (py__mro___cyclic_terminates st_cyclic 1 (class_def "A" [base 2])).
  - reflexivity.
  - reflexivity.
  - apply tc_l with 2.
    + exists (class_def "A" [base 2]), (LazyTreeValue [VClass 2]).
      split; [reflexivity|]. split; apply list_elem_of_singleton; reflexivity.
    + apply tc_once.
      exists (class_def "B" [base 1]), (LazyTreeValue [VClass 1]).
      split; [reflexivity|]. split; apply list_elem_of_singleton; reflexivity.
Defined.

Example py__mro___cyclic_example :
  py__mro__ 4 st_cyclic [] 1 = Some [1; 2]
  ∧ py__mro__ 4 st_cyclic [] 2 = Some [2; 1].
Proof. split; reflexivity. Qed.

(** ** Metaclasses *)

Lemma get_metaclasses_unfold fuel st active self :
  get_metaclasses (S fuel) st active self
  = cycle_safe NO_VALUES active self
      match classes st !! self with
      | None => None
      | Some cd =>
          let scan :=
            inherited_metaclasses (get_metaclasses fuel st (self :: active))
              (py__bases__ st cd) in
          match _get_bases_arguments cd with
          | Some args =>
              let metaclasses := declared_metaclasses args in
              if truthy metaclasses then Some metaclasses else scan
          | None => scan
          end
      end.
Proof. reflexivity. Qed.




Lemma metaclasses_over_values_spec (get : nat → option ValueSet) vs rest :
  match metaclasses_over_values get vs with
  | Some (Return r) => first_nonempty get (classes_of vs ++ rest) r
  | Some Completed =>
      ∀ r, first_nonempty get rest r →
           first_nonempty get (classes_of vs ++ rest) r
  | None => True
  end.
Proof.
  induction vs as [|v vs IH]; simpl; [done|].
  destruct v as [c| |]; simpl; [|exact IH..].
  destruct (get c) as [values|] eqn:Hc; [|done].
  destruct values as [|v0 values]; simpl.
  - destruct (metaclasses_over_values get vs) as [[r|]|]; [| |done].
    + by apply first_nonempty_skip.
    + intros r Hr. apply first_nonempty_skip; [done|]. by apply IH.
  - by apply first_nonempty_here.
Qed.

Lemma metaclasses_over_bases_spec (get : nat → option ValueSet) bases :
  match metaclasses_over_bases get bases with
  | Some (Return r) => first_nonempty get (base_classes bases) r
  | Some Completed => first_nonempty get (base_classes bases) NO_VALUES
  | None => True
  end.
Proof.
  induction bases as [|b bases IH]; simpl; [constructor|].
  assert (base_classes (b :: bases)
          = classes_of (infer b) ++ base_classes bases) as ->.
  { unfold base_classes, classes_of. simpl. by rewrite omap_app. }
  pose proof (metaclasses_over_values_spec get (infer b) (base_classes bases))
    as Hv.
  destruct (metaclasses_over_values get (infer b)) as [[r|]|]; [done| |done].
  destruct (metaclasses_over_bases get bases) as [[r|]|]; [| |done];
    by apply Hv.
Qed.

Lemma inherited_metaclasses_spec (get : nat → option ValueSet) bases r :
  inherited_metaclasses get bases = Some r →
  first_nonempty get (base_classes bases) r.
Proof.
  unfold inherited_metaclasses.
  pose proof (metaclasses_over_bases_spec get bases) as H.
  destruct (metaclasses_over_bases get bases) as [[r'|]|]; [| |done];
    by intros [= <-].
Qed.

Lemma keyword_metaclass_elem (args : Unpacked) (l : LazyValue) :
  l ∈ keyword_metaclass args ↔ (Some "metaclass"%string, l) ∈ args.
Proof.
  induction args as [|[[key|] value] args IH]; simpl.
  - by rewrite !elem_of_nil.
  - destruct (String.eqb_spec key "metaclass") as [->|Hne].
    + rewrite !elem_of_cons, IH. naive_solver.
    + rewrite elem_of_cons, IH. naive_solver.
  - rewrite elem_of_cons, IH. naive_solver.
Qed.

Lemma declared_metaclasses_elem (args : Unpacked) (v : Value) :
  v ∈ declared_metaclasses args
  ↔ is_class v = true
    ∧ ∃ l, (Some "metaclass"%string, l) ∈ args ∧ v ∈ infer l.
Proof.
  unfold declared_metaclasses, ValueSet_of, from_sets.
  rewrite elem_of_remove_dups, list_elem_of_In, filter_In.
  rewrite <- list_elem_of_In, elem_of_remove_dups, list_elem_of_In, in_concat.
  split.
  - intros [(vs & Hvs & Hv) Hcls]. split; [done|].
    apply list_elem_of_In, list_elem_of_fmap in Hvs as (l & -> & Hl).
    exists l. split; [by apply keyword_metaclass_elem|by apply list_elem_of_In].
  - intros [Hcls (l & Hl & Hv)]. split; [|done].
    exists (infer l). split; [|by apply list_elem_of_In].
    apply list_elem_of_In, list_elem_of_fmap. exists l. split; [done|].
    by apply keyword_metaclass_elem.
Qed.



Example get_metaclasses_example :
  get_metaclasses 5 st_meta [] 2 = Some [VClass 1]
  ∧ get_metaclasses 5 st_meta [] 3 = Some [VClass 1]
  ∧ get_metaclasses 5 st_meta [] 1 = Some [].
Proof. repeat split; reflexivity. Qed.

(** ** Name mangling in the class filter *)

(** One round of the loop, with the step written as in the source. *)
Lemma origin_scope_walk_step (f : ClassFilter) (node : ScopeNode) :
  origin_scope_walk f node
  = if py_eq (TreeNode (scope_id node)) (TreeNode (_parser_scope f))
       || py_eq (TreeNode (scope_id node)) (ValueObject (filter_value f))
    then true
    else
      match get_cached_parent_scope node with
      | Some node' => origin_scope_walk f node'
      | None => false
      end.
Proof. by destruct node. Qed.

Lemma origin_scope_walk_spec (f : ClassFilter) (node : ScopeNode) :
  origin_scope_walk f node = true ↔ _parser_scope f ∈ ancestors node.
Proof.
  assert (∀ id, py_eq (TreeNode id) (TreeNode (_parser_scope f))
                || py_eq (TreeNode id) (ValueObject (filter_value f)) = true
                ↔ _parser_scope f = id) as Hcmp.
  { intros id. unfold py_eq. rewrite orb_true_iff, !bool_decide_eq_true.
    split; [intros [[= ->]|[=]]|intros ->; left]; done. }
  induction node as [id|id parent IH]; simpl.
  - specialize (Hcmp id). destruct (_ || _).
    + rewrite list_elem_of_singleton. split; [intros _; by apply Hcmp|done].
    + rewrite list_elem_of_singleton. split; [done|]. intros H.
      by apply Hcmp in H.
  - specialize (Hcmp id). destruct (_ || _).
    + split; [|done]. intros _. apply elem_of_cons. left. by apply Hcmp.
    + rewrite elem_of_cons, IH. split; [by right|]. intros [H|H]; [|done].
      by apply Hcmp in H.
Qed.

Lemma _equals_origin_scope_spec (f : ClassFilter) :
  _equals_origin_scope f = true ↔ origin_inside f.
Proof.
  unfold _equals_origin_scope, origin_inside.
  destruct (_origin_scope f) as [node|]; [apply origin_scope_walk_spec|done].
Qed.

Lemma _filter_elem super_filter f names from_instance name :
  name ∈ _filter super_filter f names from_instance
  ↔ name ∈ super_filter names ∧ _access_possible f name from_instance = true.
Proof.
  unfold _filter. by rewrite list_elem_of_In, filter_In, <- list_elem_of_In.
Qed.

(** C5. Of a class body that defines [__secret] and [__secret__] (both
    names pass [ParserTreeFilter._filter] and the [ClassVar] rule), a filter
    whose origin scope is not in the class leaves out [__secret] and shows
    [__secret__]; a filter whose origin scope is the class or a scope nested
    in it, found on the ancestor chain of the origin scope, shows both. *)
Theorem name_mangling_visibility
    (super_filter : list TreeName → list TreeName) (f : ClassFilter)
    (names : list TreeName) (from_instance : bool)
    (secret dunder : TreeName) :
  value secret = "__secret"%string → value dunder = "__secret__"%string →
  secret ∈ super_filter names → dunder ∈ super_filter names →
  rejected_as_instance_variable secret from_instance = false →
  rejected_as_instance_variable dunder from_instance = false →
  (¬ origin_inside f →
     (secret ∉ _filter super_filter f names from_instance)
     ∧ dunder ∈ _filter super_filter f names from_instance)
  ∧ (origin_inside f →
     secret ∈ _filter super_filter f names from_instance
     ∧ dunder ∈ _filter super_filter f names from_instance).
Proof.
  intros Hs Hd Hsin Hdin Hsvar Hdvar.
  assert (_access_possible f dunder from_instance = true) as Hdunder.
  { unfold _access_possible. by rewrite Hdvar, Hd. }
  assert (_access_possible f secret from_instance = _equals_origin_scope f)
    as Hsecret.
  { unfold _access_possible. by rewrite Hsvar, Hs. }
  split; intros Horigin; (split; [|by apply _filter_elem]).
  - rewrite _filter_elem, Hsecret, _equals_origin_scope_spec. tauto.
  - rewrite _filter_elem, Hsecret, _equals_origin_scope_spec. tauto.
Qed.

Lemma name_mangling_visibility_witness :
  ((secret_name ∉ _filter id (filter_from (Some outside_scope))
                    [secret_name; dunder_name] false)
   ∧ dunder_name ∈ _filter id (filter_from (Some outside_scope))
                     [secret_name; dunder_name] false)
  ∧ (secret_name ∈ _filter id (filter_from (Some method_scope))
                     [secret_name; dunder_name] false
     ∧ dunder_name ∈ _filter id (filter_from (Some method_scope))
                       [secret_name; dunder_name] false).
Proof.
  split.
  - apply (name_mangling_visibility id (filter_from (Some outside_scope))
             [secret_name; dunder_name] false secret_name dunder_name);
      try reflexivity.
    + apply list_elem_of_here.
    + apply list_elem_of_further, list_elem_of_here.
    + unfold origin_inside. simpl. intros H.
      repeat (apply elem_of_cons in H as [H|H]; [discriminate H|]).
      by apply elem_of_nil in H.
  - apply (name_mangling_visibility id (filter_from (Some method_scope))
             [secret_name; dunder_name] false secret_name dunder_name);
      try reflexivity.
    + apply list_elem_of_here.
    + apply list_elem_of_further, list_elem_of_here.
    + unfold origin_inside. simpl.
      apply list_elem_of_further, list_elem_of_here.
Defined.

Example name_mangling_example :
  _filter id (filter_from (Some outside_scope)) [secret_name; dunder_name] false
  = [dunder_name]
  ∧ _filter id (filter_from None) [secret_name; dunder_name] false
    = [dunder_name]
  ∧ _filter id (filter_from (Some method_scope)) [secret_name; dunder_name]
      false
    = [secret_name; dunder_name].
Proof. repeat split; reflexivity. Qed.

(** * Properties of the tree utilities *)
Import ParserUtils Trees.

(** In the last branch of a compound statement no child starts after the
    node, the loop runs to its end and the function returns [0]. *)
Lemma flow_loop_last_branch (start : Pos) (keyword : PyVal)
    (children : list Node) :
  Forall (fun child => pos_lt start (start_pos child) = false) children →
  flow_loop start keyword children = PyInt 0.
Proof.
  intros Hall. revert keyword.
  induction Hall as [|child rest Hchild _ IH]; intros keyword;
    cbn [flow_loop]; [done|].
  rewrite Hchild. destruct (node_in (get_first_leaf child) _FLOW_KEYWORDS);
    apply IH.
Qed.

(** C6. The function returns the clause keyword only for a node that lies
    before the start of some later child of the compound statement.  For
    [y] in [if x: y] it returns [0] instead of the keyword [if]; with an
    [else] clause it returns [if] for [y] and [0], not [else], for [z] in
    the last clause. *)
Theorem get_flow_branch_keyword_last_clause :
  get_flow_branch_keyword if_stmt name_y = Ok (PyInt 0)
  ∧ get_flow_branch_keyword if_else_stmt name_y = Ok (PyNode kw_if)
  ∧ get_flow_branch_keyword if_else_stmt name_z = Ok (PyInt 0).
Proof. repeat split; reflexivity. Qed.

Lemma get_flow_branch_keyword_last_branch (flow_node node : Node)
    (children : list Node) :
  node_children flow_node = Some children →
  pos_lt (start_pos flow_node) (start_pos node) = true →
  pos_le (start_pos node) (end_pos flow_node) = true →
  Forall (fun child => pos_lt (start_pos node) (start_pos child) = false)
    children →
  get_flow_branch_keyword flow_node node = Ok (PyInt 0).
Proof.
  intros Hchildren Hlt Hle Hall. unfold get_flow_branch_keyword.
  rewrite Hlt, Hle, Hchildren. simpl.
  by rewrite flow_loop_last_branch.
Qed.

(** ** Executable nodes *)

(** Induction on syntax trees. *)
Lemma Node_rect_children (P : Node → Prop) :
  (∀ id type value start_pos end_pos, P (Leaf id type value start_pos end_pos)) →
  (∀ id type children, Forall P children → P (BaseNode id type children)) →
  ∀ n, P n.
Proof.
  intros Hleaf Hnode. fix IH 1. intros [id type value s e|id type children].
  - apply Hleaf.
  - apply Hnode. induction children as [|c cs IHcs]; constructor.
    + apply IH.
    + apply IHcs.
Qed.

Lemma name_branch_read root node last_added result :
  name_branch root node last_added = Ok result →
  Forall (name_is_read root) result.
Proof.
  unfold name_branch. destruct last_added; simpl; [by intros [= <-]|].
  destruct (find_parent root (node_id node)) as [parent|] eqn:Hparent; [|done].
  destruct (String.eqb_spec (node_type parent) "param") as [Heq|Hne]; simpl;
    [by intros [= <-]|].
  destruct (from_option _ false (get_next_leaf root node)) eqn:Hnext; simpl;
    intros [= <-]; [done|].
  constructor; [|done]. intros _. split; [by exists parent|done].
Qed.

Lemma over_children_read root recurse children last_added result :
  Forall (fun c => ∀ la r, recurse c la = Ok r → Forall (name_is_read root) r)
    children →
  over_children recurse children last_added = Ok result →
  Forall (name_is_read root) result.
Proof.
  intros Hall. revert result.
  induction Hall as [|c cs Hc _ IH]; intros result; simpl; [by intros [= <-]|].
  destruct (recurse c last_added) as [r|] eqn:Hr; [|done]. simpl.
  destruct (over_children recurse cs last_added) as [rs|]; [|done]. simpl.
  intros [= <-]. apply Forall_app. split; [by eapply Hc|by apply IH].
Qed.

Lemma recurse_at_read root recurse children i result :
  Forall (fun c => ∀ la r, recurse c la = Ok r → Forall (name_is_read root) r)
    children →
  recurse_at recurse children i = Ok result →
  Forall (name_is_read root) result.
Proof.
  intros Hall. revert i.
  induction Hall as [|c cs Hc _ IH]; intros i; simpl; [done|].
  destruct i as [|i]; [apply Hc|apply IH].
Qed.

Lemma not_name_is_read root n :
  node_type n ≠ "name"%string → name_is_read root n.
Proof. intros Hne Heq. done. Qed.

Lemma get_executable_nodes_read root node last_added result :
  get_executable_nodes root node last_added = Ok result →
  Forall (name_is_read root) result.
Proof.
  revert last_added result.
  induction node as [id typ value s e|id typ children IH]
    using Node_rect_children; intros last_added result;
    cbn [get_executable_nodes].
  - destruct (String.eqb_spec typ "name"); [apply name_branch_read|].
    destruct (String.eqb typ "expr_stmt"); [done|].
    destruct (String.eqb typ "decorator"); [done|].
    by intros [= <-].
  - destruct (String.eqb_spec typ "name") as [|Hname];
      [apply name_branch_read|].
    destruct (String.eqb typ "expr_stmt").
    { destruct (over_children _ children true) as [rs|] eqn:Hrs; [|done].
      simpl. intros [= <-]. constructor.
      - by apply not_name_is_read.
      - by eapply over_children_read. }
    destruct (String.eqb typ "decorator").
    { destruct (index_from_end children 2) as [c2|]; [|done]. simpl.
      destruct (node_eq_str c2 ")"); [|by intros [= <-]].
      destruct (index_from_end children 3) as [c3|]; [|done]. simpl.
      destruct (node_eq_str c3 "("); simpl; [by intros [= <-]|].
      by apply recurse_at_read. }
    destruct (over_children _ children last_added) as [rs|] eqn:Hrs; [|done].
    simpl. intros [= <-]. apply Forall_app. split.
    + destruct (_ && _); [|done]. constructor; [|done].
      by apply not_name_is_read.
    + by eapply over_children_read.
Qed.

(** C10. A name node in the list [get_executable_nodes] returns never has
    a parent of type [param] and is never followed by the leaf [=]. *)
Theorem get_executable_nodes_names
    (root node : Node) (last_added : bool) (result : list Node) (n : Node) :
  get_executable_nodes root node last_added = Ok result →
  n ∈ result → node_type n = "name"%string →
  (∃ parent, find_parent root (node_id n) = Some parent
             ∧ node_type parent ≠ "param"%string)
  ∧ from_option (fun l => node_eq_str l "=") false (get_next_leaf root n)
    = false.
Proof.
  intros Hresult Hn Hname.
  apply get_executable_nodes_read in Hresult.
  rewrite Forall_forall in Hresult. by apply Hresult.
Qed.

Example get_executable_nodes_example :
  get_executable_nodes module_f module_f false
  = Ok [funcdef_f; name_f; call_g; name_g; name_b].
Proof. reflexivity. Qed.

Lemma get_executable_nodes_names_witness :
  (∃ parent, find_parent module_f (node_id name_b) = Some parent
             ∧ node_type parent ≠ "param"%string)
  ∧ from_option (fun l => node_eq_str l "=") false
      (get_next_leaf module_f name_b) = false.
Proof.
  apply (get_executable_nodes_names module_f module_f false
           [funcdef_f; name_f; call_g; name_g; name_b] name_b).
  - reflexivity.
  - do 4 apply list_elem_of_further. apply list_elem_of_here.
  - reflexivity.
Defined.

(** * Properties of the standard-library patches *)
Import StdlibPlugin.

(** ** [type] *)

(** C9, as amended.  For a call that reaches [builtins_type], the first
    parameter holds the values of the first argument.  When the [bases] or
    the [dict] argument infers to at least one value the result is
    [NO_VALUES] and not the class of the first argument; in every other
    case, which is the one-argument form and also a call whose further
    arguments infer to no value, the result is the class of the first
    argument. *)
Theorem builtins_type_arguments (py__class__ : ValueSet → ValueSet)
    (arguments : list LazyValue) (objects bases dicts : ValueSet) :
  clinic_object_bases_dict arguments = Some (objects, bases, dicts) →
  (∃ object, head arguments = Some object ∧ objects = infer object)
  ∧ ((∃ l, l ∈ drop 1 arguments ∧ infer l ≠ []) →
       builtins_type py__class__ objects bases dicts = NO_VALUES)
  ∧ ((∀ l, l ∈ drop 1 arguments → infer l = []) →
       builtins_type py__class__ objects bases dicts = py__class__ objects).
Proof.
  unfold builtins_type.
  destruct arguments as [|o [|b [|d [|]]]]; [done| | | |done]; simpl;
    intros [= <- <- <-]; (split; [by exists o|]).
  - split; [|done]. by intros (l & ?%elem_of_nil & _).
  - split.
    + intros (l & Hin & Hl). apply list_elem_of_singleton in Hin. subst l.
      by destruct (infer b).
    + intros Hall. by rewrite (Hall b) by apply list_elem_of_here.
  - split.
    + intros (l & Hin & Hl).
      apply elem_of_cons in Hin as [Hin|Hin%list_elem_of_singleton]; subst l.
      * by destruct (infer b).
      * destruct (infer d); [done|]. by rewrite orb_true_r.
    + intros Hall. rewrite (Hall b) by apply list_elem_of_here.
      by rewrite (Hall d) by (apply list_elem_of_further, list_elem_of_here).
Qed.

Lemma builtins_type_arguments_witness :
  builtins_type classes_of_instances [VOther 1] [VOther 2] [VOther 3]
  = NO_VALUES.
Proof.
  destruct (builtins_type_arguments classes_of_instances type_creation
              [VOther 1] [VOther 2] [VOther 3] eq_refl) as (_ & Hsome & _).
  apply Hsome. exists (LazyTreeValue [VOther 2]).
  split; [apply list_elem_of_here|discriminate].
Defined.

(** [type(x, undefined_a, undefined_b)] has three arguments and gives the
    class of [x]. *)
Lemma builtins_type_unresolved_arguments :
  1 < length type_of_x_and_two_unresolved
  ∧ clinic_object_bases_dict type_of_x_and_two_unresolved
    = Some ([VInstance 1], [], [])
  ∧ builtins_type classes_of_instances [VInstance 1] [] [] = [VClass 1]
  ∧ builtins_type classes_of_instances [VInstance 1] [] [] ≠ NO_VALUES.
Proof. repeat split; try reflexivity; [simpl; lia|discriminate]. Qed.

(** ** [functools.partial] *)

Lemma count_arguments_spec (arg_count : nat) (keys : gset string)
    (rest : Unpacked) :
  count_arguments arg_count keys rest
  = (arg_count + prebound_positional rest,
     keys ∪ list_to_set (prebound_keywords rest)).
Proof.
  revert arg_count keys.
  induction rest as [|[[key|] value] rest IH]; intros arg_count keys.
  - simpl. f_equal; [unfold prebound_positional; simpl; lia|].
    unfold prebound_keywords. simpl. by rewrite (right_id_L ∅ (∪)).
  - cbn [count_arguments]. rewrite IH. f_equal.
    unfold prebound_keywords. simpl. by rewrite (assoc_L (∪)).
  - cbn [count_arguments]. rewrite IH. f_equal.
    unfold prebound_positional. simpl. lia.
Qed.

Lemma PartialSignature_get_param_names_spec (s : Signature) (rest : Unpacked) :
  PartialSignature_get_param_names
    {| _wrapped_signature := s;
       _skipped_arg_count := prebound_positional rest;
       _skipped_arg_set := ∅ ∪ list_to_set (prebound_keywords rest) |}
  = remaining_params (prebound_positional rest) (prebound_keywords rest)
      (get_param_names s).
Proof.
  unfold PartialSignature_get_param_names, remaining_params. simpl.
  apply filter_ext. intros n. apply bool_decide_ext. set_solver.
Qed.

(** C8. For a partial object whose first argument is the wrapped callable,
    [get_signatures()] gives one signature per signature of the callable,
    and each reports the parameter list of that signature without its first
    [k] parameters, [k] being the number of pre-bound positional arguments,
    and without the parameters named by a pre-bound keyword argument; for
    [(a, b, c)] with [(1,)] and [c=9] pre-bound it reports [(b,)]. *)
Theorem partial_get_signatures_params
    (func_get_signatures : ValueSet → list Signature)
    (actual_value : Value) (function : LazyValue) (rest : Unpacked) :
  map PartialSignature_get_param_names
    (get_signatures func_get_signatures
       {| _actual_value := actual_value;
          _arguments := (None, function) :: rest |})
  = map (fun s => remaining_params (prebound_positional rest)
                    (prebound_keywords rest) (get_param_names s))
      (func_get_signatures (infer function))
  ∧ map PartialSignature_get_param_names
      (get_signatures signatures_of_f partial_f)
    = [[ {| string_name := "b" |} ]].
Proof.
  assert (∀ fgs av f r,
    map PartialSignature_get_param_names
      (get_signatures fgs {| _actual_value := av;
                             _arguments := (None, f) :: r |})
    = map (fun s => remaining_params (prebound_positional r)
                      (prebound_keywords r) (get_param_names s))
        (fgs (infer f))) as Hgeneral.
  { intros fgs av f r. unfold get_signatures. simpl.
    rewrite count_arguments_spec. simpl. rewrite map_map.
    apply map_ext. intros s. apply PartialSignature_get_param_names_spec. }
  split; [apply Hgeneral|].
  unfold partial_f. rewrite Hgeneral. reflexivity.
Qed.

(** ** [super] *)

Section SuperFilters.
Context {Filter : Type}.
Variable execute_with_values : ValueSet → ValueSet.
Variable get_filters_of : Value → list Filter.

Lemma filters_over_objects_concat (objs : ValueSet) :
  filters_over_objects get_filters_of objs = concat (map get_filters_of objs).
Proof. induction objs as [|obj objs IH]; simpl; [done|]. by rewrite IH. Qed.

Lemma filters_over_bases_concat (bases : list LazyValue) :
  filters_over_bases execute_with_values get_filters_of bases
  = concat (map (fun b => concat (map get_filters_of
                                    (execute_with_values (infer b)))) bases).
Proof.
  induction bases as [|b bases IH]; simpl; [done|].
  by rewrite IH, filters_over_objects_concat.
Qed.

Lemma filters_over_bases_elem (bases : list LazyValue) (f : Filter) :
  f ∈ filters_over_bases execute_with_values get_filters_of bases
  ↔ ∃ b obj, b ∈ bases ∧ obj ∈ execute_with_values (infer b)
             ∧ f ∈ get_filters_of obj.
Proof.
  rewrite filters_over_bases_concat, list_elem_of_In, in_concat. split.
  - intros (fs & Hfs & Hf). apply in_map_iff in Hfs as (b & <- & Hb).
    apply in_concat in Hf as (fs' & Hfs' & Hf).
    apply in_map_iff in Hfs' as (obj & <- & Hobj).
    exists b, obj. by rewrite !list_elem_of_In.
  - intros (b & obj & Hb & Hobj & Hf).
    exists (concat (map get_filters_of (execute_with_values (infer b)))).
    split.
    + apply in_map_iff. exists b. by rewrite <- list_elem_of_In.
    + apply in_concat. exists (get_filters_of obj). split.
      * apply in_map_iff. exists obj. by rewrite <- list_elem_of_In.
      * by apply list_elem_of_In.
Qed.

(** C7, as amended.  For the proxy [builtins_super] returns, [get_filters]
    yields the filters of the instances of every declared base of the class
    of the wrapped instance, base after base in declaration order. *)
Theorem super_instance_filters_every_base
    (st : InferState) (types objects : ValueSet) (value : ContextValue)
    (self : SuperInstance) (bases : list LazyValue) :
  self ∈ builtins_super types objects value →
  _get_bases st self = Some bases →
  (∃ c cd, _instance self = VInstance c ∧ classes st !! c = Some cd
           ∧ bases = py__bases__ st cd)
  ∧ get_filters execute_with_values get_filters_of st self
    = Some (concat (map (fun b => concat (map get_filters_of
                                            (execute_with_values (infer b))))
                        bases))
  ∧ ∀ f, (∃ fs, get_filters execute_with_values get_filters_of st self
                = Some fs ∧ f ∈ fs)
         ↔ ∃ b obj, b ∈ bases ∧ obj ∈ execute_with_values (infer b)
                    ∧ f ∈ get_filters_of obj.
Proof.
  intros _ Hbases. split; [|split].
  - unfold _get_bases in Hbases.
    destruct (_instance self) as [|c|]; [done| |done].
    destruct (classes st !! c) as [cd|] eqn:Hcd; [|done].
    exists c, cd. by simplify_eq.
  - unfold get_filters. rewrite Hbases. by rewrite filters_over_bases_concat.
  - intros f. unfold get_filters. rewrite Hbases.
    rewrite <- filters_over_bases_elem. split.
    + by intros (fs & [= <-] & Hf).
    + intros Hf. by eexists.
Qed.
End SuperFilters.

Lemma super_instance_filters_witness :
  (∃ c cd, _instance super_of_C = VInstance c
           ∧ classes st_two_bases !! c = Some cd
           ∧ [LazyTreeValue [VClass 1]; LazyTreeValue [VClass 2]]
             = py__bases__ st_two_bases cd)
  ∧ get_filters execute_classes (instance_filters st_two_bases) st_two_bases
      super_of_C
    = Some (concat (map (fun b => concat (map (instance_filters st_two_bases)
                                            (execute_classes (infer b))))
                        [LazyTreeValue [VClass 1]; LazyTreeValue [VClass 2]]))
  ∧ ∀ f, (∃ fs, get_filters execute_classes (instance_filters st_two_bases)
                  st_two_bases super_of_C = Some fs ∧ f ∈ fs)
         ↔ ∃ b obj, b ∈ [LazyTreeValue [VClass 1]; LazyTreeValue [VClass 2]]
                    ∧ obj ∈ execute_classes (infer b)
                    ∧ f ∈ instance_filters st_two_bases obj.
Proof.
  apply (super_instance_filters_every_base execute_classes
           (instance_filters st_two_bases) st_two_bases [] []
           (FunctionExecutionValue (InstanceArguments (VInstance 3)))
           super_of_C).
  - apply list_elem_of_here.
  - reflexivity.
Defined.

(** C7, the claim as stated fails: in a method of [class C(A, B)] the
    filters of the proxy are those of [A], [object], [B] and [object]; the
    filters of the first declared base alone are those of [A] and [object],
    so the filter of [B], class [2], comes from the second base. *)
Lemma super_instance_filters_second_base :
  builtins_super [] [] (FunctionExecutionValue (InstanceArguments (VInstance 3)))
  = [super_of_C]
  ∧ _get_bases st_two_bases super_of_C
    = Some [LazyTreeValue [VClass 1]; LazyTreeValue [VClass 2]]
  ∧ get_filters execute_classes (instance_filters st_two_bases) st_two_bases
      super_of_C
    = Some [1; 0; 2; 0]
  ∧ filters_over_bases execute_classes (instance_filters st_two_bases)
      [LazyTreeValue [VClass 1]]
    = [1; 0]
  ∧ get_filters execute_classes (instance_filters st_two_bases) st_two_bases
      super_of_C
    ≠ Some (filters_over_bases execute_classes (instance_filters st_two_bases)
              [LazyTreeValue [VClass 1]]).
Proof. repeat split; try reflexivity. discriminate. Qed.

(** * Further properties of the tree utilities *)

Lemma pos_lt_spec (a b : Pos) : pos_lt a b = true ↔ lex_lt a b.
Proof.
  unfold pos_lt, lex_lt.
  rewrite orb_true_iff, andb_true_iff, !Nat.ltb_lt, Nat.eqb_eq. tauto.
Qed.

Lemma pos_le_spec (a b : Pos) : pos_le a b = true ↔ lex_le a b.
Proof.
  unfold pos_le, lex_le.
  rewrite orb_true_iff, andb_true_iff, Nat.ltb_lt, Nat.leb_le, Nat.eqb_eq.
  tauto.
Qed.

(** X1. [get_flow_branch_keyword] raises [ValueError] exactly when the
    start of the node is not after the start of the flow node or is after
    its end, in the order of lines and columns. *)
Theorem get_flow_branch_keyword_ValueError (flow_node node : Node) :
  get_flow_branch_keyword flow_node node = Raise "ValueError"
  ↔ ¬ (lex_lt (start_pos flow_node) (start_pos node)
       ∧ lex_le (start_pos node) (end_pos flow_node)).
Proof.
  rewrite <- pos_lt_spec, <- pos_le_spec. unfold get_flow_branch_keyword.
  destruct (pos_lt (start_pos flow_node) (start_pos node));
    destruct (pos_le (start_pos node) (end_pos flow_node)); simpl;
    try (split; [intros _; intros [? ?]; done|done]).
  destruct (node_children flow_node); split; try done; intros H;
    destruct H; done.
Qed.

Lemma flow_loop_shape (start : Pos) (keyword : PyVal) (children : list Node) :
  flow_loop start keyword children = keyword
  ∨ flow_loop start keyword children = PyInt 0
  ∨ ∃ child, child ∈ children
      ∧ flow_loop start keyword children = PyNode (get_first_leaf child)
      ∧ node_in (get_first_leaf child) _FLOW_KEYWORDS = true
      ∧ pos_lt start (start_pos child) = false.
Proof.
  revert keyword.
  induction children as [|child rest IH]; intros keyword; cbn [flow_loop].
  - by right; left.
  - destruct (pos_lt start (start_pos child)) eqn:Hlt; [by left|].
    destruct (node_in (get_first_leaf child) _FLOW_KEYWORDS) eqn:Hkw.
    + destruct (IH (PyNode (get_first_leaf child)))
        as [H|[H|(c & Hc & H & Hk & Hs)]].
      * right; right. exists child. split; [by left|done].
      * by right; left.
      * right; right. exists c. split; [by right|done].
    + destruct (IH keyword) as [H|[H|(c & Hc & H & Hk & Hs)]].
      * by left.
      * by right; left.
      * right; right. exists c. split; [by right|done].
Qed.

(** X2. What [get_flow_branch_keyword] returns is [None], [0], or the
    first leaf of a child of the flow node that is one of the flow keywords
    and does not start after the node. *)
Theorem get_flow_branch_keyword_shape
    (flow_node node : Node) (r : PyVal) :
  get_flow_branch_keyword flow_node node = Ok r →
  r = PyNone ∨ r = PyInt 0
  ∨ ∃ children child,
      node_children flow_node = Some children ∧ child ∈ children
      ∧ r = PyNode (get_first_leaf child)
      ∧ node_in (get_first_leaf child) _FLOW_KEYWORDS = true
      ∧ pos_lt (start_pos node) (start_pos child) = false.
Proof.
  unfold get_flow_branch_keyword.
  destruct (negb _); [done|].
  destruct (node_children flow_node) as [children|]; [|done].
  intros [= <-].
  destruct (flow_loop_shape (start_pos node) PyNone children)
    as [H|[H|(c & Hc & H & Hk & Hs)]].
  - by left.
  - by right; left.
  - right; right. by exists children, c.
Qed.

Lemma get_flow_branch_keyword_shape_witness :
  PyNode kw_if = PyNone ∨ PyNode kw_if = PyInt 0
  ∨ ∃ children child,
      node_children if_else_stmt = Some children ∧ child ∈ children
      ∧ PyNode kw_if = PyNode (get_first_leaf child)
      ∧ node_in (get_first_leaf child) _FLOW_KEYWORDS = true
      ∧ pos_lt (start_pos name_y) (start_pos child) = false.
Proof.
  apply (get_flow_branch_keyword_shape if_else_stmt name_y (PyNode kw_if)).
  reflexivity.
Defined.

(** ** More on executable nodes *)

Lemma over_children_members (P : Node → Node → Prop) recurse children
    last_added result :
  Forall (fun c => ∀ la r, recurse c la = Ok r → Forall (P c) r) children →
  over_children recurse children last_added = Ok result →
  Forall (fun n => ∃ c, c ∈ children ∧ P c n) result.
Proof.
  intros Hall. revert result.
  induction Hall as [|c cs Hc _ IH]; intros result; simpl; [by intros [= <-]|].
  destruct (recurse c last_added) as [r|] eqn:Hr; [|done]. simpl.
  destruct (over_children recurse cs last_added) as [rs|]; [|done]. simpl.
  intros [= <-]. apply Forall_app. split.
  - eapply Forall_impl; [by eapply Hc|]. intros n Hn. exists c.
    split; [by left|done].
  - eapply Forall_impl; [by apply IH|]. intros n (c' & Hc' & Hn).
    exists c'. split; [by right|done].
Qed.

Lemma recurse_at_members (P : Node → Node → Prop) recurse children i result :
  Forall (fun c => ∀ la r, recurse c la = Ok r → Forall (P c) r) children →
  recurse_at recurse children i = Ok result →
  Forall (fun n => ∃ c, c ∈ children ∧ P c n) result.
Proof.
  intros Hall. revert i.
  induction Hall as [|c cs Hc _ IH]; intros i; simpl; [done|].
  destruct i as [|i].
  - intros Hr. eapply Forall_impl; [by eapply Hc|]. intros n Hn. exists c.
    split; [by left|done].
  - intros Hr. eapply Forall_impl; [by eapply IH|]. intros n (c' & Hc' & Hn).
    exists c'. split; [by right|done].
Qed.

Lemma name_branch_members root node last_added result :
  name_branch root node last_added = Ok result →
  result = [node] ∨ result = [].
Proof.
  unfold name_branch. destruct (negb last_added); [|by intros [= <-]; right].
  destruct (find_parent root (node_id node)); [|done].
  destruct (_ && _); intros [= <-]; [by left|by right].
Qed.

Lemma get_executable_nodes_members root node last_added result :
  get_executable_nodes root node last_added = Ok result →
  Forall (fun n => subnode n node ∧ appended_kind n) result.
Proof.
  revert last_added result.
  induction node as [id typ value s e|id typ children IH]
    using Node_rect_children; intros last_added result;
    cbn [get_executable_nodes].
  - destruct (String.eqb_spec typ "name") as [->|].
    { intros [->| ->]%name_branch_members; [|done].
      constructor; [|done]. split; [constructor|by left]. }
    destruct (String.eqb typ "expr_stmt"); [done|].
    destruct (String.eqb typ "decorator"); [done|].
    by intros [= <-].
  - assert (∀ r, Forall (fun n => ∃ c, c ∈ children
                ∧ (subnode n c ∧ appended_kind n)) r →
              Forall (fun n => subnode n (BaseNode id typ children)
                               ∧ appended_kind n) r) as Hlift.
    { intros r Hr. eapply Forall_impl; [exact Hr|].
      intros n (c & Hc & Hsub & Hkind).
      split; [by eapply subnode_child|done]. }
    destruct (String.eqb_spec typ "name") as [->|Hname].
    { intros [->| ->]%name_branch_members; [|done].
      constructor; [|done]. split; [constructor|by left]. }
    destruct (String.eqb_spec typ "expr_stmt") as [->|Hexpr].
    { destruct (over_children _ children true) as [rs|] eqn:Hrs; [|done].
      simpl. intros [= <-]. constructor.
      - split; [constructor|by right; left].
      - apply Hlift. by eapply over_children_members. }
    destruct (String.eqb typ "decorator").
    { destruct (index_from_end children 2) as [c2|]; [|done]. simpl.
      destruct (node_eq_str c2 ")"); [|by intros [= <-]].
      destruct (index_from_end children 3) as [c3|]; [|done]. simpl.
      destruct (node_eq_str c3 "("); simpl; [by intros [= <-]|].
      intros Hr. apply Hlift. by eapply recurse_at_members. }
    remember (str_in typ _EXECUTE_NODES) as exec eqn:Hexec.
    destruct (over_children _ children last_added) as [rs|] eqn:Hrs; [|done].
    simpl. intros [= <-]. apply Forall_app. split.
    + destruct exec; simpl; [|done].
      destruct (negb last_added); [|done]. constructor; [|done].
      split; [constructor|by right; right].
    + apply Hlift. by eapply over_children_members.
Qed.

(** X3. Every node [get_executable_nodes] returns lies in the tree of its
    argument and is a name, an [expr_stmt] or a node whose type is one of
    [_EXECUTE_NODES]. *)
Theorem get_executable_nodes_subnodes
    (root node : Node) (last_added : bool) (result : list Node) (n : Node) :
  get_executable_nodes root node last_added = Ok result → n ∈ result →
  subnode n node ∧ appended_kind n.
Proof.
  intros Hresult Hn. apply get_executable_nodes_members in Hresult.
  rewrite Forall_forall in Hresult. by apply Hresult.
Qed.

Lemma get_executable_nodes_subnodes_witness :
  subnode call_g module_f ∧ appended_kind call_g.
Proof.
  apply (get_executable_nodes_subnodes module_f module_f false
           [funcdef_f; name_f; call_g; name_g; name_b] call_g).
  - reflexivity.
  - do 2 apply list_elem_of_further. apply list_elem_of_here.
Defined.

Lemma over_children_expr_stmts recurse children result :
  Forall (fun c => ∀ r, no_decorator c = true → recurse c true = Ok r →
                        Forall (fun n => node_type n = "expr_stmt"%string) r)
    children →
  forallb no_decorator children = true →
  over_children recurse children true = Ok result →
  Forall (fun n => node_type n = "expr_stmt"%string) result.
Proof.
  intros Hall. revert result.
  induction Hall as [|c cs Hc _ IH]; intros result; simpl;
    [by intros _ [= <-]|].
  intros [Hnc Hncs]%andb_prop.
  destruct (recurse c true) as [r|] eqn:Hr; [|done]. simpl.
  destruct (over_children recurse cs true) as [rs|]; [|done]. simpl.
  intros [= <-]. apply Forall_app. split; [by apply Hc|by apply IH].
Qed.

(** X4. With [last_added=True], as for the children of an [expr_stmt], and
    no decorator in the tree, the function returns [expr_stmt] nodes only:
    neither the names nor the expressions of an assignment are listed
    besides the assignment itself. *)
Theorem get_executable_nodes_last_added
    (root node : Node) (result : list Node) (n : Node) :
  no_decorator node = true →
  get_executable_nodes root node true = Ok result → n ∈ result →
  node_type n = "expr_stmt"%string.
Proof.
  intros Hnd Hresult Hn.
  enough (Forall (fun n => node_type n = "expr_stmt"%string) result) as Hall.
  { rewrite Forall_forall in Hall. by apply Hall. }
  clear Hn. revert result Hnd Hresult.
  induction node as [id typ value s e|id typ children IH]
    using Node_rect_children; intros result; cbn [get_executable_nodes].
  - intros _. unfold name_branch. simpl.
    destruct (String.eqb typ "name"); [by intros [= <-]|].
    destruct (String.eqb typ "expr_stmt"); [done|].
    destruct (String.eqb typ "decorator"); [done|].
    by intros [= <-].
  - cbn [no_decorator]. intros [Hdec Hcs]%andb_prop.
    apply negb_true_iff in Hdec. rewrite Hdec.
    unfold name_branch. simpl.
    destruct (String.eqb typ "name"); [by intros [= <-]|].
    destruct (String.eqb_spec typ "expr_stmt") as [->|Hexpr].
    + destruct (over_children _ children true) as [rs|] eqn:Hrs; [|done].
      simpl. intros [= <-]. constructor; [done|].
      eapply over_children_expr_stmts; [|done..].
      eapply Forall_impl; [exact IH|]. intros c Hc r ? ?. by apply Hc.
    + destruct (over_children _ children true) as [rs|] eqn:Hrs; [|done].
      simpl. rewrite andb_false_r. simpl. intros [= <-].
      eapply over_children_expr_stmts; [|done..].
      eapply Forall_impl; [exact IH|]. intros c Hc r ? ?. by apply Hc.
Qed.

Lemma get_executable_nodes_last_added_witness :
  node_type assign_xy = "expr_stmt"%string.
Proof.
  apply (get_executable_nodes_last_added assign_xy assign_xy [assign_xy]
           assign_xy).
  - reflexivity.
  - reflexivity.
  - apply list_elem_of_here.
Defined.

(** ** Comprehension clauses *)

Lemma at_last_inv (recurse : Node → Result (list Node)) children r :
  at_last recurse children = Ok r →
  ∃ c, c ∈ children ∧ recurse c = Ok r.
Proof.
  induction children as [|c cs IH]; simpl; [done|].
  destruct cs as [|c' cs'].
  - intros Hr. exists c. split; [by left|done].
  - intros Hr. destruct (IH Hr) as (c0 & Hc0 & Hr0). exists c0.
    split; [by right|done].
Qed.

Lemma comp_for_loop_members (last : Node) (r : list Node) :
  comp_for_loop last = Ok r →
  Forall (fun n => node_type n = "comp_for"%string ∧ subnode n last) r.
Proof.
  revert r.
  induction last as [id typ value s e|id typ children IH]
    using Node_rect_children; intros r; cbn [comp_for_loop node_type].
  - destruct (String.eqb typ "comp_for"); [done|].
    destruct (String.eqb typ "comp_if"); [done|]. by intros [= <-].
  - assert (∀ r', at_last comp_for_loop children = Ok r' →
              Forall (fun n => node_type n = "comp_for"%string
                               ∧ subnode n (BaseNode id typ children)) r')
      as Hstep.
    { intros r' (c & Hc & Hr')%at_last_inv.
      rewrite Forall_forall in IH. specialize (IH c Hc r' Hr').
      eapply Forall_impl; [exact IH|]. intros n [Hn Hsub].
      split; [done|by eapply subnode_child]. }
    destruct (String.eqb_spec typ "comp_for") as [->|Hne].
    + destruct (at_last comp_for_loop children) as [rest|] eqn:Hrest; [|done].
      simpl. intros [= <-]. constructor; [|by apply Hstep].
      split; [done|constructor].
    + destruct (String.eqb typ "comp_if"); simpl; [|by intros [= <-]].
      apply Hstep.
Qed.

(** X5. When [get_comp_fors] runs to its end, the first node it yields is
    its argument, every further node has type [comp_for], and all of them
    lie in the tree of the argument. *)
Theorem get_comp_fors_members (comp_for : Node) (r : list Node) :
  get_comp_fors comp_for = Ok r →
  ∃ rest, r = comp_for :: rest
    ∧ Forall (fun n => node_type n = "comp_for"%string
                       ∧ subnode n comp_for) rest.
Proof.
  unfold get_comp_fors. destruct comp_for as [|id typ children]; [done|].
  destruct (at_last comp_for_loop children) as [rest|] eqn:Hrest; [|done].
  simpl. intros [= <-]. exists rest. split; [done|].
  apply at_last_inv in Hrest as (c & Hc & Hr).
  apply comp_for_loop_members in Hr.
  eapply Forall_impl; [exact Hr|]. intros n [Hn Hsub].
  split; [done|by eapply subnode_child].
Qed.

Lemma get_comp_fors_members_witness :
  ∃ rest, [outer_comp_for; inner_comp_for] = outer_comp_for :: rest
    ∧ Forall (fun n => node_type n = "comp_for"%string
                       ∧ subnode n outer_comp_for) rest.
Proof.
  apply (get_comp_fors_members outer_comp_for
           [outer_comp_for; inner_comp_for]).
  reflexivity.
Defined.

(** ** The statement at a position *)

Lemma statement_loop_inv is_flow_or_scope recurse pos children :
  Forall (fun c => ∀ r, recurse c = Ok (Some r) →
            spans r pos = true
            ∧ str_in (node_type r) ["decorated"; "simple_stmt"; "suite"]
              = false
            ∧ is_flow_or_scope r = false ∧ subnode r c) children →
  ∀ r, statement_loop is_flow_or_scope recurse pos children = Ok (Some r) →
    spans r pos = true
    ∧ str_in (node_type r) ["decorated"; "simple_stmt"; "suite"] = false
    ∧ is_flow_or_scope r = false
    ∧ ∃ c, c ∈ children ∧ subnode r c.
Proof.
  intros Hall. induction Hall as [|c cs Hc _ IH]; intros r; [done|].
  assert (statement_loop is_flow_or_scope recurse pos cs = Ok (Some r) →
          spans r pos = true
          ∧ str_in (node_type r) ["decorated"; "simple_stmt"; "suite"] = false
          ∧ is_flow_or_scope r = false
          ∧ ∃ c0, c0 ∈ c :: cs ∧ subnode r c0) as Hrest.
  { intros Hr. destruct (IH r Hr) as (? & ? & ? & c' & ? & ?).
    repeat split; try done. exists c'. split; [by right|done]. }
  assert (match recurse c with
          | Raise e =>
              if String.eqb e "AttributeError"
              then statement_loop is_flow_or_scope recurse pos cs
              else Raise e
          | Ok r0 => Ok r0
          end = Ok (Some r) →
          spans r pos = true
          ∧ str_in (node_type r) ["decorated"; "simple_stmt"; "suite"] = false
          ∧ is_flow_or_scope r = false
          ∧ ∃ c0, c0 ∈ c :: cs ∧ subnode r c0) as Hdescend.
  { destruct (recurse c) as [[r'|]|e] eqn:Hrec; [|done|].
    - intros [= <-]. destruct (Hc _ eq_refl) as (? & ? & ? & ?).
      repeat split; try done. exists c. split; [by left|done].
    - destruct (String.eqb e "AttributeError"); [exact Hrest|done]. }
  cbn [statement_loop]. fold (spans c pos).
  destruct (spans c pos) eqn:Hspan; [|exact Hrest].
  destruct (str_in (node_type c) _) eqn:Htype; simpl; [exact Hdescend|].
  destruct (is_flow_or_scope c) eqn:Hflow; simpl; [exact Hdescend|].
  intros [= <-]. repeat split; try done. exists c.
  split; [by left|constructor].
Qed.

(** X6. A node [get_statement_of_position] returns lies in a child of the
    argument, its span contains the position, and it is neither a
    [decorated], [simple_stmt] or [suite] node nor a flow statement, class
    or function. *)
Theorem get_statement_of_position_found
    (is_flow_or_scope : Node → bool) (node : Node) (pos : Pos) (r : Node) :
  get_statement_of_position is_flow_or_scope node pos = Ok (Some r) →
  lex_le (start_pos r) pos ∧ lex_le pos (end_pos r)
  ∧ str_in (node_type r) ["decorated"; "simple_stmt"; "suite"] = false
  ∧ is_flow_or_scope r = false
  ∧ ∃ children c, node_children node = Some children ∧ c ∈ children
                  ∧ subnode r c.
Proof.
  intros Hr.
  enough (spans r pos = true
          ∧ str_in (node_type r) ["decorated"; "simple_stmt"; "suite"] = false
          ∧ is_flow_or_scope r = false
          ∧ ∃ children c, node_children node = Some children ∧ c ∈ children
                          ∧ subnode r c) as H.
  { destruct H as (Hspan & Htype & Hflow & Hsub).
    apply andb_prop in Hspan as [H1 H2].
    apply pos_le_spec in H1. apply pos_le_spec in H2. done. }
  revert r Hr.
  induction node as [id typ value s e|id typ children IH]
    using Node_rect_children; intros r; cbn [get_statement_of_position];
    [done|].
  intros Hr. apply statement_loop_inv in Hr.
  - destruct Hr as (? & ? & ? & c & ? & ?). repeat split; try done.
    by exists children, c.
  - eapply Forall_impl; [exact IH|]. intros c Hc r' Hr'.
    destruct (Hc r' Hr') as (? & ? & ? & cs' & c' & Hcs' & ? & ?).
    repeat split; try done.
    destruct c as [|id' typ' cs'']; [done|]. simpl in Hcs'. simplify_eq.
    by eapply subnode_child.
Qed.

Lemma get_statement_of_position_found_witness :
  lex_le (start_pos name_y) (2, 4) ∧ lex_le (2, 4) (end_pos name_y)
  ∧ str_in (node_type name_y) ["decorated"; "simple_stmt"; "suite"] = false
  ∧ flow_or_scope name_y = false
  ∧ ∃ children c, node_children module_if = Some children ∧ c ∈ children
                  ∧ subnode name_y c.
Proof.
  apply (get_statement_of_position_found flow_or_scope module_if (2, 4)
           name_y).
  reflexivity.
Defined.

(** X7. [get_statement_of_position] returns [None] when the span of no
    child of the node contains the position, and raises [AttributeError] on
    a leaf. *)
Theorem get_statement_of_position_outside
    (is_flow_or_scope : Node → bool) (node : Node) (pos : Pos) :
  (∀ children, node_children node = Some children →
     Forall (fun c => spans c pos = false) children →
     get_statement_of_position is_flow_or_scope node pos = Ok None)
  ∧ (node_children node = None →
     get_statement_of_position is_flow_or_scope node pos
     = Raise "AttributeError").
Proof.
  split.
  - intros children Hchildren Hall.
    destruct node as [|id typ cs]; [done|]. simpl in Hchildren. simplify_eq.
    cbn [get_statement_of_position].
    induction Hall as [|c cs Hc _ IH]; [done|].
    cbn [statement_loop]. fold (spans c pos). by rewrite Hc.
  - by destruct node.
Qed.

(** ** Literals *)

Lemma substring_0_0 (s : string) : String.substring 0 0 s = ""%string.
Proof. by destruct s. Qed.

(** The test on the first two characters, put in lower case, is the test
    for the prefix of a format string. *)
Lemma first_two_f_literal (value : string) :
  match lower (String.substring 0 2 value) with
  | EmptyString => value = ""%string
  | String first _ as first_two =>
      String.eqb (String first EmptyString) "f"
      || str_in first_two ["fr"; "rf"]
      = f_literal value
  end.
Proof.
  destruct value as [|c1 [|c2 rest]]; [done| |].
  - destruct c1 as [[] [] [] [] [] [] [] []]; reflexivity.
  - cbn [String.substring]. rewrite substring_0_0. destruct rest;
    destruct c1 as [[] [] [] [] [] [] [] []]; try (vm_compute; reflexivity);
      destruct c2 as [[] [] [] [] [] [] [] []]; vm_compute; reflexivity.
Qed.

(** X8. [safe_literal_eval] raises [IndexError] on the empty string and
    returns the empty string, whatever [literal_eval] does, for every literal
    with the prefix of a format string.  For every other literal it returns
    what [literal_eval] returns, turns a [SyntaxError] of [literal_eval],
    also of a class derived from it, into the empty string, and lets every
    other exception through. *)
Theorem safe_literal_eval_edges
    (literal_eval : string → Result string) :
  safe_literal_eval literal_eval "" = Raise "IndexError"
  ∧ (∀ value, f_literal value = true →
       safe_literal_eval literal_eval value = Ok ""%string)
  ∧ (∀ value, value ≠ ""%string → f_literal value = false →
       (∀ r, literal_eval value = Ok r →
          safe_literal_eval literal_eval value = Ok r)
       ∧ (∀ e, literal_eval value = Raise e → is_SyntaxError e = true →
            safe_literal_eval literal_eval value = Ok ""%string)
       ∧ (∀ e, literal_eval value = Raise e → is_SyntaxError e = false →
            safe_literal_eval literal_eval value = Raise e)).
Proof.
  split; [done|]. split.
  - intros value Hf. unfold safe_literal_eval.
    pose proof (first_two_f_literal value) as Htest. cbv zeta.
    destruct (lower (String.substring 0 2 value)) as [|first rest].
    + by subst value.
    + by rewrite Htest, Hf.
  - intros value Hne Hf. unfold safe_literal_eval.
    pose proof (first_two_f_literal value) as Htest. cbv zeta.
    destruct (lower (String.substring 0 2 value)) as [|first rest]; [done|].
    rewrite Htest, Hf. repeat split.
    + by intros r ->.
    + by intros e -> ->.
    + by intros e -> ->.
Qed.

Example safe_literal_eval_example (literal_eval : string → Result string) :
  safe_literal_eval literal_eval "F'{x}'" = Ok ""%string
  ∧ safe_literal_eval literal_eval "Rf'{x}'" = Ok ""%string
  ∧ (literal_eval "'doc'" = Ok "doc"%string →
     safe_literal_eval literal_eval "'doc'" = Ok "doc"%string)
  ∧ (literal_eval " 'doc'" = Raise "IndentationError" →
     safe_literal_eval literal_eval " 'doc'" = Ok ""%string)
  ∧ (literal_eval "x" = Raise "ValueError" →
     safe_literal_eval literal_eval "x" = Raise "ValueError").
Proof.
  repeat split; try reflexivity; intros He; unfold safe_literal_eval; simpl;
    by rewrite He.
Qed.

(** * Further properties of the class model *)

(** ** Visibility in the class filter *)

Lemma rejected_as_instance_variable_instance (name : TreeName) :
  rejected_as_instance_variable name true = false.
Proof. done. Qed.

(** X9. Every name a class filter shows on class access it shows on
    instance access as well: the [ClassVar] rule only applies when
    [from_instance] is false. *)
Theorem _filter_class_access_subset
    (super_filter : list TreeName → list TreeName) (f : ClassFilter)
    (names : list TreeName) (name : TreeName) :
  name ∈ _filter super_filter f names false →
  name ∈ _filter super_filter f names true.
Proof.
  rewrite !_filter_elem. intros [Hin Hacc]. split; [done|].
  unfold _access_possible in *.
  rewrite rejected_as_instance_variable_instance.
  by destruct (rejected_as_instance_variable name false).
Qed.

Lemma _filter_class_access_subset_witness :
  dunder_name ∈ _filter id (filter_from None) [secret_name; dunder_name] true.
Proof.
  apply (_filter_class_access_subset id (filter_from None)
           [secret_name; dunder_name] dunder_name).
  apply list_elem_of_here.
Defined.

Lemma str_contains_spec (sub s : string) :
  sub ≠ ""%string →
  str_contains sub s = true
  ↔ ∃ m, String.substring m (String.length sub) s = sub.
Proof.
  intros Hsub. unfold str_contains.
  destruct (String.index 0 sub s) as [m|] eqn:Hindex.
  - split; [intros _|done]. exists m. by eapply String.index_correct1.
  - split; [done|]. intros [m Hm].
    destruct (String.index_correct3 0 m sub s Hindex Hsub); [lia|done].
Qed.

(** X10. On class access a name bound by an annotated assignment is shown
    exactly when the code of its annotation contains [ClassVar] and the
    name passes the base filter and the name-mangling test; on instance
    access the annotation plays no part. *)
Theorem _filter_annotated_assignment
    (super_filter : list TreeName → list TreeName) (f : ClassFilter)
    (names : list TreeName) (name : TreeName) (expr_stmt : DefinitionNode) :
  get_definition name = Some expr_stmt →
  def_type expr_stmt = "expr_stmt"%string →
  child1_type expr_stmt = "annassign"%string →
  (name ∈ _filter super_filter f names false
   ↔ name ∈ super_filter names
     ∧ (∃ m, String.substring m 8 (annotation_code expr_stmt)
             = "ClassVar"%string)
     ∧ (startswith "__" (value name) = false
        ∨ endswith "__" (value name) = true ∨ origin_inside f))
  ∧ (name ∈ _filter super_filter f names true
     ↔ name ∈ super_filter names
       ∧ (startswith "__" (value name) = false
          ∨ endswith "__" (value name) = true ∨ origin_inside f)).
Proof.
  intros Hdef Htype Hchild.
  assert (negb (startswith "__" (value name)) || endswith "__" (value name)
          || _equals_origin_scope f = true
          ↔ startswith "__" (value name) = false
            ∨ endswith "__" (value name) = true ∨ origin_inside f) as Hmangle.
  { rewrite !orb_true_iff, negb_true_iff, _equals_origin_scope_spec. tauto. }
  rewrite !_filter_elem. unfold _access_possible.
  rewrite rejected_as_instance_variable_instance.
  unfold rejected_as_instance_variable. simpl.
  rewrite Hdef, Htype, Hchild. simpl.
  rewrite <- (str_contains_spec "ClassVar") by done.
  destruct (str_contains "ClassVar" (annotation_code expr_stmt)); simpl.
  - rewrite Hmangle. split; [|done]. split; [|tauto].
    intros [? ?]. by repeat split.
  - rewrite Hmangle. split; [|done]. split; [by intros [? ?]|].
    by intros (? & ? & ?).
Qed.

Lemma _filter_annotated_assignment_witness :
  (instance_var_name
     ∈ _filter id (filter_from None) [classvar_name; instance_var_name] false
   ↔ instance_var_name ∈ id [classvar_name; instance_var_name]
     ∧ (∃ m, String.substring m 8 (annotation_code (annotated "int"))
             = "ClassVar"%string)
     ∧ (startswith "__" (value instance_var_name) = false
        ∨ endswith "__" (value instance_var_name) = true
        ∨ origin_inside (filter_from None)))
  ∧ (instance_var_name
       ∈ _filter id (filter_from None) [classvar_name; instance_var_name] true
     ↔ instance_var_name ∈ id [classvar_name; instance_var_name]
       ∧ (startswith "__" (value instance_var_name) = false
          ∨ endswith "__" (value instance_var_name) = true
          ∨ origin_inside (filter_from None))).
Proof.
  apply (_filter_annotated_assignment id (filter_from None)
           [classvar_name; instance_var_name] instance_var_name
           (annotated "int")); reflexivity.
Defined.

Example _filter_annotated_example :
  _filter id (filter_from None) [classvar_name; instance_var_name] false
  = [classvar_name]
  ∧ _filter id (filter_from None) [classvar_name; instance_var_name] true
    = [classvar_name; instance_var_name].
Proof. split; reflexivity. Qed.

Lemma origin_scope_walk_ext (f f' : ClassFilter) (node : ScopeNode) :
  _parser_scope f = _parser_scope f' → filter_value f = filter_value f' →
  origin_scope_walk f node = origin_scope_walk f' node.
Proof.
  intros Hscope Hvalue. induction node as [i|i parent IH];
    cbn [origin_scope_walk]; rewrite Hscope, Hvalue; [done|].
  by rewrite IH.
Qed.

(** X11. Whether a name that does not start with two underscores, or ends
    with two, is shown does not depend on the filter; and a name shown to an
    origin scope is shown to every scope nested in that scope. *)
Theorem _access_possible_origin
    (f : ClassFilter) (name : TreeName) (from_instance : bool) :
  (startswith "__" (value name) = false ∨ endswith "__" (value name) = true →
   ∀ f', _access_possible f' name from_instance
         = _access_possible f name from_instance)
  ∧ (∀ node id,
       _origin_scope f = Some node →
       _access_possible f name from_instance = true →
       _access_possible
         {| filter_value := filter_value f; _parser_scope := _parser_scope f;
            _origin_scope := Some (InnerScope id node) |} name from_instance
       = true).
Proof.
  split.
  - intros Hpublic f'. unfold _access_possible.
    destruct (rejected_as_instance_variable name from_instance); [done|].
    destruct Hpublic as [-> | ->]; simpl; [done|].
    by rewrite !orb_true_r.
  - intros node id Horigin. unfold _access_possible.
    destruct (rejected_as_instance_variable name from_instance); [done|].
    rewrite !orb_true_iff. intros [[H|H]|H]; [by left; left|by left; right|].
    right. unfold _equals_origin_scope in *. rewrite Horigin in H.
    cbn [_origin_scope]. rewrite origin_scope_walk_step.
    destruct (_ || _); [done|]. cbn [get_cached_parent_scope].
    rewrite <- H. by apply origin_scope_walk_ext.
Qed.

(** ** The classes of a method resolution order *)

Lemma mro_append_new_elem (mro yielded : list nat) (x : nat) :
  x ∈ mro_append_new mro yielded ↔ x ∈ mro ∨ x ∈ yielded.
Proof.
  revert mro. induction yielded as [|c ys IH]; intros mro; simpl.
  - rewrite elem_of_nil. tauto.
  - case_bool_decide as Hc; rewrite IH, elem_of_cons.
    + split; [tauto|]. intros [H|[->|H]]; tauto.
    + rewrite elem_of_app, list_elem_of_singleton. tauto.
Qed.

Lemma mro_over_values_elem (m : nat → option (list nat)) mro vs r x :
  mro_over_values m mro vs = Some r →
  (∀ c, VClass c ∈ vs → is_Some (m c))
  ∧ (x ∈ r ↔ x ∈ mro ∨ ∃ c ys, VClass c ∈ vs ∧ m c = Some ys ∧ x ∈ ys).
Proof.
  revert mro. induction vs as [|v vs IH]; intros mro; simpl.
  - intros [= <-]. split; [by intros c ?%elem_of_nil|].
    split; [by left|]. intros [H|(c & ys & ?%elem_of_nil & _)]; done.
  - assert (∀ mro', mro_over_values m mro' vs = Some r →
              (∀ c, v ≠ VClass c) →
              (∀ c, VClass c ∈ v :: vs → is_Some (m c))
              ∧ (x ∈ r ↔ x ∈ mro' ∨ ∃ c ys, VClass c ∈ v :: vs
                                     ∧ m c = Some ys ∧ x ∈ ys)) as Hskip.
    { intros mro' Hr Hv. destruct (IH _ Hr) as [Hsome Hx]. split.
      - intros c [Hc|Hc]%elem_of_cons; [by destruct (Hv c)|by apply Hsome].
      - rewrite Hx. split; intros [H|(c & ys & Hc & Hm & Hy)]; try by left.
        + right. exists c, ys. split; [by right|done].
        + right. exists c, ys. apply elem_of_cons in Hc as [Hc|Hc];
            [by destruct (Hv c)|done]. }
    destruct v as [c| |]; [|by intros ?; apply Hskip..].
    destruct (m c) as [ys|] eqn:Hc; [|done].
    intros Hr. destruct (IH _ Hr) as [Hsome Hx]. split.
    + intros c' [[= ->]|Hc']%elem_of_cons; [by rewrite Hc|by apply Hsome].
    + rewrite Hx, mro_append_new_elem. split.
      * intros [[H|H]|(c' & ys' & Hc' & Hm & Hy)]; [by left| |].
        -- right. exists c, ys. split; [by left|done].
        -- right. exists c', ys'. split; [by right|done].
      * intros [H|(c' & ys' & Hc' & Hm & Hy)]; [by left; left|].
        apply elem_of_cons in Hc' as [[= ->]|Hc'].
        -- left; right. by simplify_eq.
        -- right. by exists c', ys'.
Qed.

Lemma mro_over_bases_elem (m : nat → option (list nat)) mro bases r x :
  mro_over_bases m mro bases = Some r →
  (∀ l c, l ∈ bases → VClass c ∈ infer l → is_Some (m c))
  ∧ (x ∈ r ↔ x ∈ mro ∨ ∃ l c ys, l ∈ bases ∧ VClass c ∈ infer l
                            ∧ m c = Some ys ∧ x ∈ ys).
Proof.
  revert mro. induction bases as [|b bases IH]; intros mro; simpl.
  - intros [= <-]. split; [by intros l c ?%elem_of_nil|].
    split; [by left|]. intros [H|(l & c & ys & ?%elem_of_nil & _)]; done.
  - destruct (mro_over_values m mro (infer b)) as [mro'|] eqn:Hv; [|done].
    intros Hr. destruct (IH _ Hr) as [Hsome Hx].
    destruct (mro_over_values_elem m mro (infer b) mro' x Hv)
      as [Hsome' Hx']. split.
    + intros l c [->|Hl]%elem_of_cons Hc; [by apply Hsome'|by eapply Hsome].
    + rewrite Hx, Hx'. split.
      * intros [[H|(c & ys & Hc & Hm & Hy)]|(l & c & ys & Hl & Hc & Hm & Hy)].
        -- by left.
        -- right. exists b, c, ys. split; [by left|done].
        -- right. exists l, c, ys. split; [by right|done].
      * intros [H|(l & c & ys & Hl & Hc & Hm & Hy)]; [by left; left|].
        apply elem_of_cons in Hl as [->|Hl].
        -- left; right. by exists c, ys.
        -- right. by exists l, c, ys.
Qed.

(** One level of [py__mro__]: the class itself and what the calls on the
    classes of its bases yield. *)
Lemma py__mro___elem st fuel active self cd mro x :
  py__mro__ (S fuel) st active self = Some mro → self ∉ active →
  classes st !! self = Some cd →
  (∀ l c, l ∈ py__bases__ st cd → VClass c ∈ infer l →
     is_Some (py__mro__ fuel st (self :: active) c))
  ∧ (x ∈ mro ↔ x = self
       ∨ ∃ l c ys, l ∈ py__bases__ st cd ∧ VClass c ∈ infer l
           ∧ py__mro__ fuel st (self :: active) c = Some ys ∧ x ∈ ys).
Proof.
  rewrite py__mro___unfold. unfold cycle_safe. intros Hr Hself Hcd.
  rewrite bool_decide_eq_false_2, Hcd in Hr by done.
  destruct (mro_over_bases_elem _ _ _ _ x Hr) as [Hsome Hx].
  split; [done|]. by rewrite Hx, list_elem_of_singleton.
Qed.

Lemma py__mro___sound st fuel active self mro x :
  py__mro__ fuel st active self = Some mro → x ∈ mro →
  rtc (base_of st) self x.
Proof.
  revert active self mro x.
  induction fuel as [|fuel IH]; intros active self mro x; [done|].
  intros Hr Hx. destruct (decide (self ∈ active)) as [Hact|Hact].
  { rewrite py__mro___unfold in Hr. unfold cycle_safe in Hr.
    rewrite bool_decide_eq_true_2 in Hr by done. simplify_eq.
    by apply elem_of_nil in Hx. }
  destruct (classes st !! self) as [cd|] eqn:Hcd.
  - destruct (py__mro___elem _ _ _ _ _ _ x Hr Hact Hcd) as [_ Hiff].
    apply Hiff in Hx as [->|(l & c & ys & Hl & Hc & Hys & Hx)]; [done|].
    eapply rtc_l; [|by eapply IH]. by exists cd, l.
  - rewrite py__mro___unfold in Hr. unfold cycle_safe in Hr.
    by rewrite bool_decide_eq_false_2, Hcd in Hr.
Qed.

Lemma py__mro___complete st fuel active self mro x :
  py__mro__ fuel st active self = Some mro →
  reach_avoiding st active self x → x ∈ mro.
Proof.
  intros Hr Hreach. revert fuel mro Hr.
  induction Hreach as [active a Hact Ha|active a b x Hact Hbase Hreach IH];
    intros fuel mro Hr.
  - destruct (py__mro___inv _ _ _ _ _ Hr Hact) as [Hhead _].
    destruct mro as [|y mro]; [done|]. simpl in Hhead. simplify_eq. by left.
  - destruct fuel as [|fuel]; [done|].
    destruct Hbase as (cd & l & Hcd & Hl & Hb).
    destruct (py__mro___elem _ _ _ _ _ _ x Hr Hact Hcd) as [Hsome Hiff].
    destruct (Hsome l b Hl Hb) as [ys Hys].
    apply Hiff. right. exists l, b, ys. repeat split; try done.
    by eapply IH.
Qed.

(** A chain that never returns to its first class: either it is empty or
    it leaves the class for good with its last step out of it. *)
Lemma base_outside_first_step st avoid a x :
  rtc (base_outside st avoid) a x →
  a = x ∨ ∃ b, base_of st a b ∧ (b ∉ a :: avoid)
               ∧ rtc (base_outside st (a :: avoid)) b x.
Proof.
  revert x. apply rtc_ind_r; [by left|].
  intros y x Hay [Hyx Hx] IH.
  destruct (decide (a = x)) as [->|Hne]; [by left|]. right.
  assert (x ∉ a :: avoid) as Hx'.
  { intros [->|?]%elem_of_cons; done. }
  destruct IH as [->|(b & Hab & Hb & Hby)].
  - exists x. by repeat split.
  - exists b. repeat split; try done. eapply rtc_r; [done|]. by split.
Qed.

Lemma reach_avoiding_of_rtc st n avoid a x :
  closed st = true →
  NoDup avoid → (∀ c, c ∈ avoid → c < length (classes st)) →
  length (classes st) ≤ n + length avoid →
  a ∉ avoid → a < length (classes st) →
  rtc (base_outside st avoid) a x → reach_avoiding st avoid a x.
Proof.
  intros Hclosed. revert avoid a.
  induction n as [|n IH]; intros avoid a Hnd Hbound Hlen Ha Hlt Hrtc.
  - assert (length (a :: avoid) ≤ length (classes st)) as Hle.
    { apply active_bound; [by apply NoDup_cons|].
      intros c [->|Hc]%elem_of_cons; [done|by apply Hbound]. }
    simpl in Hle. lia.
  - destruct (base_outside_first_step _ _ _ _ Hrtc)
      as [<-|(b & Hab & Hb & Hbx)].
    + apply reach_here; [done|]. by apply lookup_lt_is_Some_2.
    + eapply reach_base; [done..|].
      destruct Hab as (cd & l & Hcd & Hl & Hbl).
      pose proof (closed_bases_known _ _ _ _ _ Hclosed Hcd Hl Hbl) as Hk.
      simpl in Hk. apply Nat.ltb_lt in Hk.
      apply IH; try done.
      * by apply NoDup_cons.
      * intros c [->|Hc]%elem_of_cons; [done|by apply Hbound].
      * simpl. lia.
Qed.

(** A class that reaches no cycle is not among the classes under
    computation, and no chain that starts at it enters one of them. *)
Lemma in_progress_outside st active self x :
  reaches_no_cycle st self → in_progress st active self →
  rtc (base_of st) self x →
  (self ∉ active) ∧ rtc (base_outside st active) self x.
Proof.
  intros Hacyclic Hstack.
  assert (∀ y, rtc (base_of st) self y → y ∉ active) as Hout.
  { intros y Hy Hin. apply (Hacyclic y Hy). unfold cyclic.
    eapply tc_rtc_r; [by apply Hstack|done]. }
  intros Hx. split; [by apply Hout|].
  revert x Hx. apply rtc_ind_r; [done|].
  intros y x Hy Hyx IH. eapply rtc_r; [done|]. split; [done|].
  apply Hout. by eapply rtc_r.
Qed.

Lemma py__mro___elem_rtc st fuel active c mro k :
  closed st = true → c < length (classes st) →
  reaches_no_cycle st c →
  NoDup active → (∀ a, a ∈ active → a < length (classes st)) →
  in_progress st active c →
  py__mro__ fuel st active c = Some mro →
  k ∈ mro ↔ rtc (base_of st) c k.
Proof.
  intros Hclosed Hc Hacyclic Hnd Hact Hstack Hmro. split.
  - by eapply py__mro___sound.
  - intros Hrtc.
    destruct (in_progress_outside _ _ _ _ Hacyclic Hstack Hrtc)
      as [Hout Houtside].
    eapply py__mro___complete; [done|].
    apply (reach_avoiding_of_rtc st (length (classes st))); try done. lia.
Qed.

Lemma defined_before_base_of st a b :
  defined_before st = true → base_of st a b → b < a.
Proof.
  unfold defined_before. rewrite forallb_forall.
  intros Hall (cd & l & Hcd & Hl & Hb).
  specialize (Hall (a, cd)). rewrite forallb_forall in Hall.
  assert (In (a, cd) (imap pair (classes st))) as Hin.
  { apply list_elem_of_In, elem_of_lookup_imap. by exists a, cd. }
  specialize (Hall Hin l). rewrite forallb_forall in Hall.
  apply list_elem_of_In in Hl, Hb.
  specialize (Hall Hl (VClass b) Hb). by apply Nat.ltb_lt in Hall.
Qed.

Lemma defined_before_reaches_no_cycle st c :
  defined_before st = true → reaches_no_cycle st c.
Proof.
  intros Hbefore x _ Hcyclic.
  assert (∀ a b, tc (base_of st) a b → b < a) as Hlt.
  { induction 1 as [a b Hab|a b d Hab _ IH].
    - by eapply defined_before_base_of.
    - pose proof (defined_before_base_of _ _ _ Hbefore Hab). lia. }
  apply Hlt in Hcyclic. lia.
Qed.

(** X12. In a closed state, for a class from which no chain of base
    expressions meets a cycle, [py__mro__] completes and holds exactly the
    classes that chains of base expressions lead to from the class, the
    class itself included; this is so whichever classes are under
    computation when the method is called. *)
Theorem py__mro___reachable
    (st : InferState) (fuel : nat) (active : list nat) (self : nat) :
  closed st = true → self < length (classes st) →
  reaches_no_cycle st self →
  NoDup active → (∀ a, a ∈ active → a < length (classes st)) →
  in_progress st active self →
  length (classes st) < fuel + length active →
  ∃ mro, py__mro__ fuel st active self = Some mro
    ∧ ∀ x, x ∈ mro ↔ rtc (base_of st) self x.
Proof.
  intros Hclosed Hself Hacyclic Hnd Hact Hstack Hfuel.
  destruct (py__mro___is_Some st fuel active self) as [mro Hmro]; [done..|].
  exists mro. split; [done|]. intros x.
  by eapply py__mro___elem_rtc.
Qed.

Lemma py__mro___reachable_witness :
  ∃ mro, py__mro__ 4 st_two_bases [3] 1 = Some mro
    ∧ ∀ x, x ∈ mro ↔ rtc (base_of st_two_bases) 1 x.
Proof.
  apply (py__mro___reachable st_two_bases 4 [3] 1).
  - reflexivity.
  - simpl. lia.
  - by apply defined_before_reaches_no_cycle.
  - apply NoDup_singleton.
  - intros a ->%list_elem_of_singleton. simpl. lia.
  - intros a ->%list_elem_of_singleton. apply tc_once.
    exists (class_def "C" [base 1; base 2]), (LazyTreeValue [VClass 1]).
    split; [reflexivity|]. split; apply list_elem_of_here.
  - simpl. lia.
Defined.

Example py__mro___two_bases :
  py__mro__ 5 st_two_bases [] 3 = Some [3; 1; 0; 2].
Proof. reflexivity. Qed.

(** ** Metaclasses are classes *)

Lemma first_nonempty_inv (get : nat → option ValueSet) cs r :
  first_nonempty get cs r → r = NO_VALUES ∨ ∃ c, c ∈ cs ∧ get c = Some r.
Proof.
  induction 1 as [|c rest vs Hc Hvs|c rest r Hc Hrest IH]; [by left| |].
  - right. exists c. split; [by left|done].
  - destruct IH as [->|(c' & Hc' & Hr)]; [by left|].
    right. exists c'. split; [by right|done].
Qed.

(** X13. Whatever [get_metaclasses] returns consists of classes only and
    holds no value twice, be it taken from a [metaclass=] argument or
    inherited from a base. *)
Theorem get_metaclasses_classes
    (st : InferState) (fuel : nat) (active : list nat) (self : nat)
    (r : ValueSet) :
  get_metaclasses fuel st active self = Some r →
  Forall (fun v => is_class v = true) r ∧ NoDup r.
Proof.
  revert active self r.
  induction fuel as [|fuel IH]; intros active self r; [done|].
  rewrite get_metaclasses_unfold. unfold cycle_safe.
  case_bool_decide; [intros [= <-]; split; [done|apply NoDup_nil_2]|].
  destruct (classes st !! self) as [cd|]; [|done]. cbv zeta.
  assert (inherited_metaclasses (get_metaclasses fuel st (self :: active))
            (py__bases__ st cd) = Some r →
          Forall (fun v => is_class v = true) r ∧ NoDup r) as Hscan.
  { intros Hr. apply inherited_metaclasses_spec, first_nonempty_inv in Hr.
    destruct Hr as [->|(c & _ & Hc)]; [split; [done|apply NoDup_nil_2]|].
    by eapply IH. }
  destruct (_get_bases_arguments cd) as [args|]; [|done].
  destruct (truthy (declared_metaclasses args)); [|done].
  intros [= <-]. split.
  - apply Forall_forall. intros v Hv.
    by apply declared_metaclasses_elem in Hv as [? _].
  - apply NoDup_remove_dups.
Qed.

Lemma get_metaclasses_classes_witness :
  Forall (fun v => is_class v = true) [VClass 1] ∧ NoDup [VClass 1].
Proof.
  apply (get_metaclasses_classes st_meta 5 [] 3 [VClass 1]). reflexivity.
Defined.

(** ** Type variables *)

Lemma type_vars_append_elem (found type_vars : list Value) (v : Value) :
  v ∈ type_vars_append found type_vars ↔ v ∈ found ∨ v ∈ type_vars.
Proof.
  revert found. induction type_vars as [|t ts IH]; intros found; simpl.
  - rewrite elem_of_nil. tauto.
  - case_bool_decide as Ht; rewrite IH, elem_of_cons.
    + split; [tauto|]. intros [H|[->|H]]; tauto.
    + rewrite elem_of_app, list_elem_of_singleton. tauto.
Qed.

Lemma type_vars_append_NoDup (found type_vars : list Value) :
  NoDup found → NoDup (type_vars_append found type_vars).
Proof.
  revert found. induction type_vars as [|t ts IH]; intros found Hnd; simpl;
    [done|].
  case_bool_decide; [by apply IH|].
  apply IH. apply NoDup_app. split; [done|]. split.
  - intros x Hx Ht. apply list_elem_of_singleton in Ht. by subst.
  - apply NoDup_singleton.
Qed.

Lemma type_vars_append_prefix (found type_vars : list Value) :
  found `prefix_of` type_vars_append found type_vars.
Proof.
  revert found. induction type_vars as [|t ts IH]; intros found; simpl;
    [done|].
  case_bool_decide; [apply IH|].
  etrans; [|apply IH]. by apply prefix_app_r.
Qed.

Lemma type_vars_over_arglist_spec find found arglist :
  NoDup found →
  NoDup (type_vars_over_arglist find found arglist)
  ∧ found `prefix_of` type_vars_over_arglist find found arglist
  ∧ ∀ v, v ∈ type_vars_over_arglist find found arglist
         ↔ v ∈ found ∨ ∃ node, (0, node) ∈ arglist ∧ v ∈ find node.
Proof.
  revert found. induction arglist as [|[stars node] rest IH]; intros found Hnd.
  - simpl. split; [done|]. split; [done|]. intros v. split; [by left|].
    intros [H|(n & ?%elem_of_nil & _)]; done.
  - cbn [type_vars_over_arglist]. destruct (Nat.eqb_spec stars 0) as [->|Hs];
      simpl.
    + destruct (IH (type_vars_append found (find node)))
        as (Hnd' & Hpre & Hiff); [by apply type_vars_append_NoDup|].
      split; [done|]. split.
      { etrans; [apply type_vars_append_prefix|done]. }
      intros v. rewrite Hiff, type_vars_append_elem. split.
      * intros [[H|H]|(n & Hn & Hv)]; [by left| |].
        -- right. exists node. split; [by left|done].
        -- right. exists n. split; [by right|done].
      * intros [H|(n & Hn & Hv)]; [by left; left|].
        apply elem_of_cons in Hn as [[= ->]|Hn]; [by left; right|].
        right. by exists n.
    + destruct (IH found Hnd) as (Hnd' & Hpre & Hiff).
      split; [done|]. split; [done|]. intros v. rewrite Hiff. split.
      * intros [H|(n & Hn & Hv)]; [by left|].
        right. exists n. split; [by right|done].
      * intros [H|(n & Hn & Hv)]; [by left|].
        apply elem_of_cons in Hn as [[= Hs' ->]|Hn]; [done|].
        right. by exists n.
Qed.

(** X14. [list_type_vars] lists every type variable found in an argument
    without stars of the base-argument list once and no other value;
    starred arguments contribute nothing, and a class without argument list
    has none. *)
Theorem list_type_vars_spec
    (find_unknown_type_vars : nat → list Value)
    (arglist : option (list (nat * nat))) :
  NoDup (list_type_vars find_unknown_type_vars arglist)
  ∧ (∀ v, v ∈ list_type_vars find_unknown_type_vars arglist
          ↔ ∃ args node, arglist = Some args ∧ (0, node) ∈ args
                         ∧ v ∈ find_unknown_type_vars node)
  ∧ list_type_vars find_unknown_type_vars None = [].
Proof.
  split; [|split; [|done]].
  - destruct arglist as [args|]; [|apply NoDup_nil_2].
    by apply type_vars_over_arglist_spec, NoDup_nil_2.
  - intros v. destruct arglist as [args|]; simpl.
    + destruct (type_vars_over_arglist_spec find_unknown_type_vars [] args)
        as (_ & _ & Hiff); [apply NoDup_nil_2|].
      rewrite Hiff. split.
      * intros [?%elem_of_nil|(n & Hn & Hv)]; [done|]. by exists args, n.
      * intros (args' & n & [= <-] & Hn & Hv). right. by exists n.
    + split; [by intros ?%elem_of_nil|]. by intros (? & ? & ? & _).
Qed.

(** ** Classes without bases *)

Lemma py__bases___nil (st : InferState) (cd : ClassDef) :
  py__bases__ st cd = []
  ↔ declared_bases cd = [] ∧ is_builtin_object st cd = true.
Proof.
  split.
  - intros Hempty. destruct (decide (declared_bases cd = [])) as [Hnone|Hsome].
    + split; [done|]. rewrite py__bases___default in Hempty by done.
      unfold default_bases in Hempty. by destruct (is_builtin_object st cd).
    + rewrite py__bases___declared in Hempty by done. done.
  - intros [Hnone Hroot]. rewrite py__bases___default by done.
    unfold default_bases. by rewrite Hroot.
Qed.

(** X15. [py__bases__] returns no base only for the class named [object]
    of the builtins module, when it declares none; every other class has at
    least one base. *)
Theorem py__bases___empty (st : InferState) (cd : ClassDef) :
  (py__bases__ st cd = []
   ↔ declared_bases cd = [] ∧ is_builtin_object st cd = true)
  ∧ (is_builtin_object st cd = false → 1 ≤ length (py__bases__ st cd)).
Proof.
  split; [apply py__bases___nil|].
  intros Hroot. destruct (py__bases__ st cd) eqn:Hbases; [|simpl; lia].
  apply py__bases___nil in Hbases as [_ ?]. congruence.
Qed.

(** * Further properties of the standard-library patches *)

(** ** [getattr] *)

Lemma getattr_over_names_spec get_str_or_none py__getattribute__ obj
    (skipped : ValueSet) name string (rest : ValueSet) :
  Forall (fun n => get_str_or_none n = None) skipped →
  get_str_or_none name = Some string →
  getattr_over_names get_str_or_none py__getattribute__ obj
    (skipped ++ name :: rest)
  = Return (py__getattribute__ obj string).
Proof.
  intros Hskipped Hname.
  induction Hskipped as [|n ns Hn _ IH]; simpl; [by rewrite Hname|].
  by rewrite Hn.
Qed.

Lemma getattr_over_names_none get_str_or_none py__getattribute__ obj
    (names : ValueSet) :
  Forall (fun n => get_str_or_none n = None) names →
  getattr_over_names get_str_or_none py__getattribute__ obj names = Completed.
Proof. induction 1 as [|n ns Hn _ IH]; simpl; [done|]. by rewrite Hn. Qed.

(** X16. [builtins_getattr] looks the attribute up on the first object
    only, under the first name that is a string, and ignores every other
    object and name; without an object, or without a name that is a string,
    it returns [NO_VALUES]. *)
Theorem builtins_getattr_first
    (get_str_or_none : Value → option string)
    (py__getattribute__ : Value → string → ValueSet) :
  (∀ obj objects skipped name string rest,
     Forall (fun n => get_str_or_none n = None) skipped →
     get_str_or_none name = Some string →
     builtins_getattr get_str_or_none py__getattribute__
       (obj :: objects) (skipped ++ name :: rest)
     = py__getattribute__ obj string)
  ∧ (∀ names,
       builtins_getattr get_str_or_none py__getattribute__ [] names
       = NO_VALUES)
  ∧ (∀ objects names,
       Forall (fun n => get_str_or_none n = None) names →
       builtins_getattr get_str_or_none py__getattribute__ objects names
       = NO_VALUES).
Proof.
  split; [|split].
  - intros obj objects skipped name string rest Hskipped Hname.
    unfold builtins_getattr. cbn [getattr_over_objects].
    by rewrite (getattr_over_names_spec _ _ _ _ _ string).
  - done.
  - intros objects names Hnames. unfold builtins_getattr.
    induction objects as [|obj objects IH]; [done|].
    cbn [getattr_over_objects].
    by rewrite getattr_over_names_none.
Qed.

(** ** [os.path.join] *)

Lemma string_app_cons (c : Ascii.ascii) (a b : string) :
  String.append (String c a) b = String c (String.append a b).
Proof. reflexivity. Qed.

Lemma string_app_nil_r (a : string) : String.append a "" = a.
Proof. induction a as [|c a IH]; [done|]. by rewrite string_app_cons, IH. Qed.

Lemma string_app_assoc (a b c : string) :
  String.append (String.append a b) c = String.append a (String.append b c).
Proof.
  induction a as [|x a IH]; [done|]. by rewrite !string_app_cons, IH.
Qed.

Lemma concat_sep_prefixed (sep x : string) (strs : list string) :
  String.concat sep (x :: strs) = String.append x (sep_prefixed sep strs).
Proof.
  revert x. induction strs as [|y strs IH]; intros x.
  - simpl. by rewrite string_app_nil_r.
  - change (String.concat sep (x :: y :: strs))
      with (String.append x (String.append sep (String.concat sep (y :: strs)))).
    by rewrite IH.
Qed.

Section PathJoinProofs.
Variable get_str_or_none : Value → option string.
Variable py__iter__ : Value → list LazyValue.
Variable sep : string.

(** A lazy value that resolves to one value, which is the string [str]. *)
Let one_string (lazy_value : LazyValue) (str : string) : Prop :=
  ∃ v, infer lazy_value = [v] ∧ get_str_or_none v = Some str.

Lemma join_loop_rest (acc : string) (lazy_values : list LazyValue) s :
  join_loop get_str_or_none sep acc false lazy_values = JoinLiteral s
  ↔ ∃ strs, Forall2 one_string lazy_values strs
            ∧ s = String.append acc (sep_prefixed sep strs).
Proof.
  revert acc. induction lazy_values as [|l ls IH]; intros acc.
  - simpl. split.
    + intros [= <-]. exists []. split; [constructor|].
      by rewrite string_app_nil_r.
    + intros (strs & Hall & ->). apply Forall2_nil_inv_l in Hall as ->.
      simpl. by rewrite string_app_nil_r.
  - cbn [join_loop].
    assert (∀ P : list string → Prop, (∀ str, ¬ one_string l str) →
              (JoinCallback = JoinLiteral s ↔
               ∃ strs, Forall2 one_string (l :: ls) strs ∧ P strs)) as Hfail.
    { intros P Hno. split; [done|]. intros (strs & Hall & _).
      apply Forall2_cons_inv_l in Hall as (str & ? & Hone & _).
      by destruct (Hno str). }
    destruct (infer l) as [|v [|v' vs]] eqn:Hinfer.
    + apply (Hfail (fun strs => s = String.append acc (sep_prefixed sep strs))).
      intros str (? & ? & _); congruence.
    + destruct (get_str_or_none v) as [x|] eqn:Hx.
      * cbn [negb]. rewrite IH. split.
        -- intros (strs & Hall & ->). exists (x :: strs). split.
           ++ constructor; [by exists v|done].
           ++ simpl. by rewrite !string_app_assoc.
        -- intros (strs & Hall & ->).
           apply Forall2_cons_inv_l in Hall
             as (x' & strs' & (v0 & Hv0 & Hx') & Hall & ->).
           rewrite Hinfer in Hv0. simplify_eq. exists strs'. split; [done|].
           simpl. by rewrite !string_app_assoc.
      * apply (Hfail (fun strs =>
                        s = String.append acc (sep_prefixed sep strs))).
        intros str (v0 & Hv0 & Hstr). congruence.
    + apply (Hfail (fun strs => s = String.append acc (sep_prefixed sep strs))).
      intros str (? & ? & _); congruence.
Qed.

(** X17. [_os_path_join] returns a string exactly when it is given one
    sequence each of whose members resolves to one value that is a string,
    and the string is then these strings joined with the separator; in
    every other case it returns what the callback gives. *)
Theorem _os_path_join_literal (args_set : ValueSet) (s : string) :
  _os_path_join get_str_or_none py__iter__ sep args_set = JoinLiteral s
  ↔ ∃ sequence strs,
      args_set = [sequence]
      ∧ Forall2 (fun lazy_value str =>
                   ∃ v, infer lazy_value = [v]
                        ∧ get_str_or_none v = Some str)
          (py__iter__ sequence) strs
      ∧ s = String.concat sep strs.
Proof.
  unfold _os_path_join. destruct args_set as [|sequence [|? ?]].
  - split; [done|]. by intros (? & ? & ? & _).
  - transitivity (∃ strs, Forall2 one_string (py__iter__ sequence) strs
                          ∧ s = String.concat sep strs).
    + destruct (py__iter__ sequence) as [|l ls].
      * simpl. split.
        -- intros [= <-]. exists []. by split; [constructor|].
        -- intros (strs & Hall & ->). by apply Forall2_nil_inv_l in Hall as ->.
      * cbn [join_loop].
        assert (∀ P : list string → Prop, (∀ str, ¬ one_string l str) →
                  (JoinCallback = JoinLiteral s ↔
                   ∃ strs, Forall2 one_string (l :: ls) strs ∧ P strs))
          as Hfail.
        { intros P Hno. split; [done|]. intros (strs & Hall & _).
          apply Forall2_cons_inv_l in Hall as (str & ? & Hone & _).
          by destruct (Hno str). }
        destruct (infer l) as [|v [|v' vs]] eqn:Hinfer.
        -- apply (Hfail (fun strs => s = String.concat sep strs)).
           intros str (? & ? & _); congruence.
        -- destruct (get_str_or_none v) as [x|] eqn:Hx.
           ++ cbn [negb]. rewrite join_loop_rest. split.
              ** intros (strs & Hall & ->). exists (x :: strs). split.
                 --- constructor; [by exists v|done].
                 --- by rewrite concat_sep_prefixed.
              ** intros (strs & Hall & ->).
                 apply Forall2_cons_inv_l in Hall
                   as (x' & strs' & (v0 & Hv0 & Hx') & Hall & ->).
                 rewrite Hinfer in Hv0. simplify_eq. exists strs'.
                 split; [done|]. by rewrite concat_sep_prefixed.
           ++ apply (Hfail (fun strs => s = String.concat sep strs)).
              intros str (v0 & Hv0 & Hstr). congruence.
        -- apply (Hfail (fun strs => s = String.concat sep strs)).
           intros str (? & ? & _); congruence.
    + split.
      * intros (strs & Hall & ->). by exists sequence, strs.
      * intros (sequence' & strs & [= <-] & Hall & ->). by exists strs.
  - split; [done|]. by intros (? & ? & ? & _).
Qed.
End PathJoinProofs.

Example _os_path_join_example :
  _os_path_join
    (fun v => match v with VOther 1 => Some "a" | VOther 2 => Some "b"
                         | _ => None end)
    (fun _ => [LazyKnownValues [VOther 1]; LazyKnownValues [VOther 2]])
    "/" [VOther 0]
  = JoinLiteral "a/b"
  ∧ _os_path_join
      (fun v => match v with VOther 1 => Some "a" | _ => None end)
      (fun _ => [LazyKnownValues [VOther 1]; LazyKnownValues [VOther 2]])
      "/" [VOther 0]
    = JoinCallback.
Proof. split; reflexivity. Qed.

(** ** Calling a partial object *)

Lemma positional_app (a b : Unpacked) :
  positional (a ++ b) = positional a ++ positional b.
Proof.
  induction a as [|[[key|] value] a IH]; simpl; [done|done|by rewrite IH].
Qed.

(** X18. A partial object whose first argument is the callable calls it
    with its remaining arguments followed by the arguments of the call, so
    the pre-bound positional arguments come first; their number is the
    number of parameters [get_signatures] leaves out, and the keywords
    [get_signatures] leaves out are the pre-bound keywords.  Without a
    callable in first place the call gives [NO_VALUES] and there is no
    signature. *)
Theorem partial_call_and_signatures
    (execute : ValueSet → option Unpacked → ValueSet)
    (func_get_signatures : ValueSet → list Signature)
    (actual_value : Value) (function : LazyValue)
    (rest call_arguments : Unpacked) :
  PartialObject_py__call__ execute
    {| _actual_value := actual_value; _arguments := (None, function) :: rest |}
    call_arguments
  = execute (infer function) (Some (rest ++ call_arguments))
  ∧ positional (rest ++ call_arguments)
    = positional rest ++ positional call_arguments
  ∧ Forall (fun s => _skipped_arg_count s = length (positional rest)
                     ∧ ∀ key, key ∈ _skipped_arg_set s
                              ↔ ∃ l, (Some key, l) ∈ rest)
      (get_signatures func_get_signatures
         {| _actual_value := actual_value;
            _arguments := (None, function) :: rest |})
  ∧ (∀ key,
       PartialObject_py__call__ execute
         {| _actual_value := actual_value;
            _arguments := (Some key, function) :: rest |} call_arguments
       = NO_VALUES
       ∧ get_signatures func_get_signatures
           {| _actual_value := actual_value;
              _arguments := (Some key, function) :: rest |} = [])
  ∧ PartialObject_py__call__ execute
      {| _actual_value := actual_value; _arguments := [] |} call_arguments
    = NO_VALUES
  ∧ get_signatures func_get_signatures
      {| _actual_value := actual_value; _arguments := [] |} = [].
Proof.
  split; [done|]. split; [apply positional_app|]. split; [|done].
  unfold get_signatures. simpl. rewrite count_arguments_spec. simpl.
  apply Forall_forall. intros s (sig & -> & _)%list_elem_of_fmap. simpl.
  split.
  - unfold prebound_positional. rewrite positional_declared.
    by rewrite length_map.
  - intros key. rewrite elem_of_union, elem_of_list_to_set.
    unfold prebound_keywords. rewrite list_elem_of_omap. split.
    + intros [?%elem_of_empty|([k l] & Hin & Hk)]; [done|].
      simpl in Hk. subst k. by exists l.
    + intros [l Hl]. right. by exists (Some key, l).
Qed.

(** ** The value a [super] proxy wraps *)

Section SuperWrapped.
Context {Filter : Type}.
Variable execute_with_values : ValueSet → ValueSet.
Variable get_filters_of : Value → list Filter.

(** X19. For a proxy around an instance of a known class,
    [_get_wrapped_value] fails (with [IndexError], on an empty list of
    bases) exactly for the builtin class [object] that declares no base;
    otherwise it gives the first object the first base yields, and the
    filters of the proxy start with the filters of that object, or the
    wrapped instance itself when the first base yields no object. *)
Theorem _get_wrapped_value_spec
    (st : InferState) (c : nat) (cd : ClassDef) :
  classes st !! c = Some cd →
  (_get_wrapped_value execute_with_values st {| _instance := VInstance c |}
   = None
   ↔ declared_bases cd = [] ∧ is_builtin_object st cd = true)
  ∧ (∀ v, _get_wrapped_value execute_with_values st
            {| _instance := VInstance c |} = Some v →
       ∃ b bases, py__bases__ st cd = b :: bases
         ∧ ((execute_with_values (infer b) = [] ∧ v = VInstance c)
            ∨ (head (execute_with_values (infer b)) = Some v
               ∧ ∃ filters,
                   get_filters execute_with_values get_filters_of st
                     {| _instance := VInstance c |}
                   = Some (get_filters_of v ++ filters)))).
Proof.
  intros Hcd. unfold _get_wrapped_value, get_filters, _get_bases. simpl.
  rewrite Hcd. split.
  - rewrite <- py__bases___nil.
    destruct (py__bases__ st cd) as [|b bases]; [done|].
    by destruct (execute_with_values (infer b)).
  - intros v. destruct (py__bases__ st cd) as [|b bases]; [done|].
    intros Hv. exists b, bases. split; [done|].
    cbn [filters_over_bases].
    destruct (execute_with_values (infer b)) as [|obj objs].
    + left. by simplify_eq.
    + right. simplify_eq. split; [done|]. cbn [filters_over_objects].
      eexists. by rewrite <- app_assoc.
Qed.
End SuperWrapped.

Lemma _get_wrapped_value_spec_witness :
  (_get_wrapped_value execute_classes st_two_bases super_of_C = None
   ↔ declared_bases (class_def "C" [base 1; base 2]) = []
     ∧ is_builtin_object st_two_bases (class_def "C" [base 1; base 2]) = true)
  ∧ (∀ v, _get_wrapped_value execute_classes st_two_bases super_of_C = Some v →
       ∃ b bases,
         py__bases__ st_two_bases (class_def "C" [base 1; base 2]) = b :: bases
         ∧ ((execute_classes (infer b) = [] ∧ v = VInstance 3)
            ∨ (head (execute_classes (infer b)) = Some v
               ∧ ∃ filters,
                   get_filters execute_classes (instance_filters st_two_bases)
                     st_two_bases super_of_C
                   = Some (instance_filters st_two_bases v ++ filters)))).
Proof.
  apply (_get_wrapped_value_spec execute_classes
           (instance_filters st_two_bases) st_two_bases 3
           (class_def "C" [base 1; base 2])).
  reflexivity.
Defined.

(** ** [isinstance] *)

Lemma in_mro_true (mro : list nat) (v : Value) :
  in_mro mro v = true ↔ ∃ k, v = VClass k ∧ k ∈ mro.
Proof.
  destruct v as [k| |]; simpl.
  - rewrite bool_decide_eq_true. split; [by exists k|].
    by intros (k' & [= <-] & ?).
  - split; [done|]. by intros (? & ? & _).
  - split; [done|]. by intros (? & ? & _).
Qed.

Section IsinstanceProofs.
Variable class_of : Value → Value.
Variable tuple_items : Value → option (list LazyValue).

(** What one type adds to [bool_results] for a given MRO. *)
Let type_adds (mro : list nat) (t : Value) (b : bool) : Prop :=
  (is_class t = true ∧ b = in_mro mro t)
  ∨ (is_class t = false
     ∧ ∃ lazy_values, tuple_items t = Some lazy_values
         ∧ b = existsb (in_mro mro) (from_sets (map infer lazy_values))).

Lemma isinstance_over_types_elem mro (bool_results : gset bool) types b :
  b ∈ isinstance_over_types tuple_items mro bool_results types
  ↔ b ∈ bool_results ∨ ∃ t, t ∈ types ∧ type_adds mro t b.
Proof.
  revert bool_results.
  induction types as [|t types IH]; intros bool_results;
    cbn [isinstance_over_types].
  - split; [by left|]. by intros [?|(? & ?%elem_of_nil & _)].
  - destruct (is_class t) eqn:Hcls.
    + rewrite IH, elem_of_union, elem_of_singleton. split.
      * intros [[?| ->]|(t' & Ht' & Hadds)]; [by left| |].
        -- right. exists t. split; [by left|]. by left.
        -- right. exists t'. split; [by right|done].
      * intros [?|(t' & [->|Ht']%elem_of_cons & Hadds)]; [by left; left| |].
        -- destruct Hadds as [[_ ->]|[? _]]; [by left; right|congruence].
        -- right. by exists t'.
    + destruct (tuple_items t) as [lazy_values|] eqn:Htuple.
      * rewrite IH, elem_of_union, elem_of_singleton. split.
        -- intros [[?| ->]|(t' & Ht' & Hadds)]; [by left| |].
           ++ right. exists t. split; [by left|]. right.
              split; [done|]. by exists lazy_values.
           ++ right. exists t'. split; [by right|done].
        -- intros [?|(t' & [->|Ht']%elem_of_cons & Hadds)]; [by left; left| |].
           ++ destruct Hadds as [[? _]|(_ & lz & Hlz & ->)]; [congruence|].
              left; right. congruence.
           ++ right. by exists t'.
      * rewrite IH. split.
        -- intros [?|(t' & Ht' & Hadds)]; [by left|].
           right. exists t'. split; [by right|done].
        -- intros [?|(t' & [->|Ht']%elem_of_cons & Hadds)]; [by left| |].
           ++ destruct Hadds as [[? _]|(_ & lz & Hlz & _)]; congruence.
           ++ right. by exists t'.
Qed.

Lemma type_adds_answer st c mro t b :
  closed st = true → c < length (classes st) → reaches_no_cycle st c →
  py__mro__ (S (length (classes st))) st [] c = Some mro →
  type_adds mro t b ↔ isinstance_answer st tuple_items c t b.
Proof.
  intros Hclosed Hc Hacyclic Hmro.
  assert (∀ k, k ∈ mro ↔ rtc (base_of st) c k) as Hmro_rtc.
  { intros k. eapply py__mro___elem_rtc; try done.
    - apply NoDup_nil_2.
    - by intros ? ?%elem_of_nil.
    - by intros ? ?%elem_of_nil. }
  assert (∀ v, in_mro mro v = true
               ↔ ∃ k, v = VClass k ∧ rtc (base_of st) c k) as Hin.
  { intros v. rewrite in_mro_true. split; intros (k & -> & Hk); exists k;
      (split; [done|]); by apply Hmro_rtc. }
  assert (∀ lazy_values,
            existsb (in_mro mro) (from_sets (map infer lazy_values)) = true
            ↔ ∃ l k, l ∈ lazy_values ∧ VClass k ∈ infer l
                     ∧ rtc (base_of st) c k) as Htuple.
  { intros lazy_values. rewrite existsb_exists. split.
    - intros (v & Hv & (k & -> & Hk)%Hin). unfold from_sets in Hv.
      rewrite <- list_elem_of_In, elem_of_remove_dups, list_elem_of_In in Hv.
      apply in_concat in Hv as (vs & Hvs & Hv).
      apply in_map_iff in Hvs as (l & <- & Hl).
      exists l, k. by rewrite !list_elem_of_In.
    - intros (l & k & Hl & Hk & Hrtc). exists (VClass k). split.
      + unfold from_sets.
        rewrite <- list_elem_of_In, elem_of_remove_dups, list_elem_of_In.
        apply in_concat. exists (infer l). split.
        * apply in_map_iff. exists l. by rewrite <- list_elem_of_In.
        * by apply list_elem_of_In.
      + apply Hin. by exists k. }
  unfold type_adds, isinstance_answer. split.
  - intros [[Hcls ->]|(Hcls & lz & Hlz & ->)].
    + left. split; [done|]. apply Hin.
    + right. split; [done|]. exists lz. split; [done|]. apply Htuple.
  - intros [[Hcls Hb]|(Hcls & lz & Hlz & Hb)].
    + left. split; [done|]. apply Bool.eq_true_iff_eq. by rewrite Hb, Hin.
    + right. split; [done|]. exists lz. split; [done|].
      apply Bool.eq_true_iff_eq. by rewrite Hb, Htuple.
Qed.

Lemma isinstance_over_objects_elem st (bool_results : gset bool)
    objects types :
  closed st = true →
  (∀ o, o ∈ objects → ∃ c, class_of o = VClass c ∧ c < length (classes st)
                           ∧ reaches_no_cycle st c) →
  ∃ bs, isinstance_over_objects class_of tuple_items st bool_results
          objects types = Some bs
    ∧ ∀ b, b ∈ bs ↔ b ∈ bool_results
           ∨ ∃ o c t, o ∈ objects ∧ class_of o = VClass c ∧ t ∈ types
                      ∧ isinstance_answer st tuple_items c t b.
Proof.
  intros Hclosed. revert bool_results.
  induction objects as [|o objects IH]; intros bool_results Hobjects.
  - exists bool_results. split; [done|]. intros b. split; [by left|].
    by intros [?|(? & ? & ? & ?%elem_of_nil & _)].
  - cbn [isinstance_over_objects].
    destruct (Hobjects o) as (c & Hc & Hlt & Hacyclic); [by left|].
    rewrite Hc.
    destruct (py__mro___is_Some st (S (length (classes st))) [] c)
      as [mro Hmro]; [done|apply NoDup_nil_2|by intros ? ?%elem_of_nil|done
                      |simpl; lia|].
    rewrite Hmro.
    destruct (IH (isinstance_over_types tuple_items mro bool_results types))
      as (bs & Hbs & Hiff).
    { intros o' Ho'. apply Hobjects. by right. }
    exists bs. split; [done|]. intros b.
    rewrite Hiff, isinstance_over_types_elem. split.
    + intros [[?|(t & Ht & Hadds)]|(o' & c' & t & Ho' & Hc' & Ht & Hans)].
      * by left.
      * right. exists o, c, t. split; [by left|].
        repeat split; try done.
        by apply (type_adds_answer st c mro t b Hclosed Hlt Hacyclic Hmro).
      * right. exists o', c', t. split; [by right|done].
    + intros [?|(o' & c' & t & [->|Ho']%elem_of_cons & Hc' & Ht & Hans)].
      * by left; left.
      * left; right. exists t. split; [done|].
        rewrite Hc in Hc'. simplify_eq.
        by apply (type_adds_answer st c' mro t b Hclosed Hlt Hacyclic Hmro).
      * right. by exists o', c', t.
Qed.

(** X20. For objects whose classes are classes of a closed state from
    which no chain of base expressions meets a cycle, [builtins_isinstance]
    collects one answer for every object and every type that is a class or
    a tuple: [True] exactly when the class, or a class among the members of
    the tuple, is reached from the class of the object by a chain of base
    expressions, and [False] otherwise.  A type that is neither contributes
    no answer. *)
Theorem builtins_isinstance_answers
    (st : InferState) (objects types : ValueSet) :
  closed st = true →
  (∀ o, o ∈ objects → ∃ c, class_of o = VClass c ∧ c < length (classes st)
                           ∧ reaches_no_cycle st c) →
  ∃ bs, builtins_isinstance class_of tuple_items st objects types = Some bs
    ∧ ∀ b, b ∈ bs
           ↔ ∃ o c t, o ∈ objects ∧ class_of o = VClass c ∧ t ∈ types
                      ∧ isinstance_answer st tuple_items c t b.
Proof.
  intros Hclosed Hobjects. unfold builtins_isinstance.
  destruct (isinstance_over_objects_elem st ∅ objects types Hclosed Hobjects)
    as (bs & Hbs & Hiff).
  exists bs. split; [done|]. intros b. rewrite Hiff. split; [|by right].
  by intros [?%elem_of_empty|?].
Qed.
End IsinstanceProofs.

Lemma builtins_isinstance_answers_witness :
  ∃ bs, builtins_isinstance class_of_instance (fun _ => None) st_two_bases
          [VInstance 3] [VClass 2] = Some bs
    ∧ ∀ b, b ∈ bs
           ↔ ∃ o c t, o ∈ [VInstance 3] ∧ class_of_instance o = VClass c
                      ∧ t ∈ [VClass 2]
                      ∧ isinstance_answer st_two_bases (fun _ => None) c t b.
Proof.
  apply (builtins_isinstance_answers class_of_instance (fun _ => None)
           st_two_bases [VInstance 3] [VClass 2]).
  - reflexivity.
  - intros o Ho. apply list_elem_of_singleton in Ho. subst o.
    exists 3. split; [reflexivity|]. split; [simpl; lia|].
    by apply defined_before_reaches_no_cycle.
Defined.

Example builtins_isinstance_example :
  builtins_isinstance class_of_instance (fun _ => None) st_two_bases
    [VInstance 3] [VClass 2] = Some {[ true ]}
  ∧ builtins_isinstance class_of_instance (fun _ => None) st_two_bases
      [VInstance 1] [VClass 2] = Some {[ false ]}
  ∧ builtins_isinstance class_of_instance (fun _ => None) st_two_bases
      [VOther 5] [VClass 2] = Some {[ true; false ]}.
Proof. repeat split; vm_compute; reflexivity. Qed.

(** ** The order of a method resolution order *)





(** ** The dispatch to the patches *)

Lemma dict_get_elem {V : Type} (d : list (string * V)) (key : string) (v : V) :
  NoDup (map fst d) → dict_get d key = Some v ↔ (key, v) ∈ d.
Proof.
  induction d as [|[k v'] d IH]; simpl; intros Hnd.
  - split; [done|]. by intros ?%elem_of_nil.
  - apply NoDup_cons in Hnd as [Hk Hnd].
    destruct (String.eqb_spec k key) as [->|Hne].
    + split.
      * intros [= ->]. by left.
      * intros [[= ->]|Hin]%elem_of_cons; [done|].
        destruct Hk. apply list_elem_of_fmap. by exists (key, v).
    + rewrite IH by done. split; [by right|].
      intros [[= -> ->]|Hin]%elem_of_cons; [done|done].
Qed.

Lemma existsb_eqb_elem (x : string) (l : list string) :
  existsb (String.eqb x) l = true ↔ x ∈ l.
Proof.
  rewrite existsb_exists. split.
  - intros (y & Hy & ->%String.eqb_eq). by apply list_elem_of_In.
  - intros Hx. exists x. split; [by apply list_elem_of_In|].
    apply String.eqb_refl.
Qed.

Lemma _implemented_keys : NoDup (map fst _implemented).
Proof. apply (bool_decide_unpack _). by vm_compute. Qed.

(** X22. [execute] hands a call to a function of [_implemented] exactly
    when the value has a name, is no bound method, lies directly in the
    builtins module or in a module, and the name is listed under the name
    of that module; the two special results for [property] only arise for
    bound methods of a class named [property] in the builtins module. *)
Theorem execute_dispatch (value : Callee) :
  (∀ m n,
     execute value = Implemented m n
     ↔ callee_name value = Some n ∧ callee_bound value = None
       ∧ (callee_parent value = BuiltinsModule ∧ m = "builtins"%string
          ∨ callee_parent value = ModuleContext m)
       ∧ ∃ functions, (m, functions) ∈ _implemented ∧ n ∈ functions)
  ∧ (execute value = BuiltinsProperty ∨ execute value = ReturnInstance →
     ∃ bound, callee_bound value = Some bound
       ∧ class_name bound = "property"%string
       ∧ (callee_parent value = BuiltinsModule
          ∨ callee_parent value = ModuleContext "builtins")).
Proof.
  assert (∀ module_name obj_name m n,
            match dict_get _implemented module_name with
            | Some functions =>
                if existsb (String.eqb obj_name) functions
                then Implemented module_name obj_name else Call
            | None => Call
            end = Implemented m n
            ↔ module_name = m ∧ obj_name = n
              ∧ ∃ functions, (m, functions) ∈ _implemented ∧ n ∈ functions)
    as Htable.
  { intros module_name obj_name m n.
    destruct (dict_get _implemented module_name) as [functions|] eqn:Hget.
    - apply dict_get_elem in Hget; [|apply _implemented_keys].
      destruct (existsb (String.eqb obj_name) functions) eqn:Hin.
      + apply existsb_eqb_elem in Hin. split.
        * intros [= <- <-]. repeat split; try done. by exists functions.
        * by intros (-> & -> & _).
      + split; [done|]. intros (-> & -> & functions' & Hf & Hn).
        apply dict_get_elem in Hget, Hf; try apply _implemented_keys.
        rewrite Hget in Hf. simplify_eq.
        apply existsb_eqb_elem in Hn. congruence.
    - split; [done|]. intros (-> & -> & functions & Hf & _).
      apply dict_get_elem in Hf; [|apply _implemented_keys]. congruence. }
  destruct value as [[obj_name|] parent bound]; unfold execute;
    cbn [callee_name callee_parent callee_bound].
  2:{ split; [|by intros [|]]. intros m n. split; [done|]. by intros ([=] & _). }
  destruct parent as [| |name|]; cbv zeta.
  - split; [|by intros [|]]. intros m n. split; [done|].
    by intros (_ & _ & [[? _]|?] & _).
  - rewrite String.eqb_refl. destruct bound as [bound|].
    + split.
      * intros m n. split; [|by intros (_ & ? & _)].
        destruct (String.eqb (method_name bound) "__get__");
          [by destruct (String.eqb (class_name bound) "property")|].
        destruct (existsb _ _); [|done].
        by destruct (String.eqb (class_name bound) "property").
      * intros H. exists bound. split; [done|]. split; [|by left].
        destruct (String.eqb (method_name bound) "__get__").
        -- destruct (String.eqb_spec (class_name bound) "property");
             [done|by destruct H].
        -- destruct (existsb _ _); [|by destruct H].
           destruct (String.eqb_spec (class_name bound) "property");
             [done|by destruct H].
    + split.
      2:{ intros [H|H]; destruct (dict_get _implemented _) as [fs|];
            try done; by destruct (existsb _ fs). }
      intros m n. rewrite Htable. split.
      * intros (<- & -> & Hf). repeat split; try done. by left.
      * intros ([= ->] & _ & [[_ ->]|[=]] & Hf). done.
  - destruct bound as [bound|].
    + split.
      * intros m n. split; [|by intros (_ & ? & _)].
        destruct (String.eqb name "builtins"); [|done].
        destruct (String.eqb (method_name bound) "__get__");
          [by destruct (String.eqb (class_name bound) "property")|].
        destruct (existsb _ _); [|done].
        by destruct (String.eqb (class_name bound) "property").
      * intros H. exists bound. split; [done|].
        destruct (String.eqb_spec name "builtins") as [->|];
          [|by destruct H].
        split; [|by right].
        destruct (String.eqb (method_name bound) "__get__").
        -- destruct (String.eqb_spec (class_name bound) "property");
             [done|by destruct H].
        -- destruct (existsb _ _); [|by destruct H].
           destruct (String.eqb_spec (class_name bound) "property");
             [done|by destruct H].
    + split.
      2:{ intros [H|H]; destruct (dict_get _implemented _) as [fs|];
            try done; by destruct (existsb _ fs). }
      intros m n. rewrite Htable. split.
      * intros (<- & -> & Hf). repeat split; try done. by right.
      * intros ([= ->] & _ & [[[=] _]|[= ->]] & Hf). done.
  - split; [|by intros [|]]. intros m n. split; [done|].
    by intros (_ & _ & [[? _]|?] & _).
Qed.

Example execute_example :
  execute {| callee_name := Some "isinstance"; callee_parent := BuiltinsModule;
             callee_bound := None |}
  = Implemented "builtins" "isinstance"
  ∧ execute {| callee_name := Some "join";
               callee_parent := ModuleContext "os.path";
               callee_bound := None |}
    = Implemented "os.path" "join"
  ∧ execute {| callee_name := Some "join"; callee_parent := NotAModule;
               callee_bound := None |}
    = Call
  ∧ execute {| callee_name := Some "getter"; callee_parent := BuiltinsModule;
               callee_bound := Some {| method_name := "getter";
                                       class_name := "property" |} |}
    = ReturnInstance.
Proof. repeat split; reflexivity. Qed.
